(** * zero_thickness_repair: snapping of near-coincident nodes in an Abaqus .inp file

    A shallow embedding of [zero_thickness_repair.py] and the properties of
    its reader, clusterer ([adjust_nodes]), rewriter and driver
    ([coord_snap]).

    Conventions of the embedding.
    - Python [float] is IEEE 754 binary64: Rocq's primitive [float], with
      [PrimFloat.sub], [PrimFloat.abs] and [PrimFloat.ltb] for [-], [abs]
      and [<].
    - Python [int] is [Z]; a coordinate tuple is a [list float]; the node
      dictionary is a [gmap Z (list float)].
    - A file handle is the list of the lines not yet read ([readline] pops
      one and returns [''] when none is left, [tell]/[seek] save and
      restore the list); the readers, the parser and the rewriter are
      stated on such lists of lines.
    - The file system of [coord_snap] is a map from path strings to texts.
      Its limits: a path string names one file and two path strings two
      files (links and other spellings of a path are not modelled); a text
      is the character sequence handed to [readline] and received from
      [write], lines ending in a line feed (the decoding and the newline
      translation of a text-mode file object are not modelled); opening
      the destination for writing never fails. The properties of
      [coord_snap] below are those that do not depend on these limits:
      what it returns, when it fails before the destination is opened, and
      what it does when both paths are the same string.
    - A raised exception is a value [Raise e] of the [result] monad.
    - The logger and the [time_me] decorator do not influence any value the
      functions compute and are left out; the number the clusterer logs is
      kept as [substitutions]. *)

Set Warnings "-inexact-float".
From Stdlib Require Import Floats ZArith Ascii String.
From stdpp Require Import gmap strings list fin_maps pretty.

Local Open Scope string_scope.
Local Open Scope Z_scope.
Local Open Scope list_scope.

(** ** Exceptions and the result monad *)

(** The three [while True] scans raise a bare [Exception] when [readline]
    returns [''] inside a section. *)
Inductive scan := NodeScan | ElementScan | RewriteScan.

Inductive exn :=
| EndOfInp (s : scan)      (* Exception('end of inp file') and its two siblings *)
| ValueError               (* int() or float() on a malformed field *)
| BadElementTypes          (* ValueError("incorrect argument for element_types") *)
| KeyError (k : Z)         (* node_coords_dict[k] on an absent node *)
| IndexError               (* coords[i] or format index out of range *)
| IOError                  (* open() of a missing source *)
| OutOfFuel.               (* no Python exception: iteration bound of a modelled loop *)

Inductive result (A : Type) :=
| Ok (a : A)
| Raise (e : exn).
Arguments Ok {A} a.
Arguments Raise {A} e.

#[global] Instance result_ret : MRet result := @Ok.
#[global] Instance result_bind : MBind result := fun A B f m =>
  match m with
  | Ok a => f a
  | Raise e => Raise e
  end.

Definition of_option {A} (e : exn) (o : option A) : result A :=
  match o with
  | Some a => Ok a
  | None => Raise e
  end.

(** [d[k]] on a dictionary and [t[i]] on a tuple. *)
Definition getitem (d : gmap Z (list float)) (k : Z) : result (list float) :=
  of_option (KeyError k) (d !! k).

Definition index {A} (t : list A) (i : nat) : result A :=
  of_option IndexError (t !! i).

(** ** Strings *)

Definition startswith (line pre : string) : bool := String.prefix pre line.

Definition is_space (c : ascii) : bool :=
  match c with
  | " "%char | "009"%char | "010"%char | "011"%char | "012"%char | "013"%char => true
  | _ => false
  end.

(** [s.rstrip()]: trailing ASCII white space removed. *)
Fixpoint rstrip (s : string) : string :=
  match s with
  | EmptyString => EmptyString
  | String c r =>
      match rstrip r with
      | EmptyString => if is_space c then EmptyString else String c EmptyString
      | r' => String c r'
      end
  end.

(** [s.split(',')]: always at least one field. *)
Fixpoint split_comma (s : string) : list string :=
  match s with
  | EmptyString => [EmptyString]
  | String c r =>
      if Ascii.eqb c ","%char then EmptyString :: split_comma r
      else match split_comma r with
           | f :: fs => String c f :: fs
           | [] => [String c EmptyString]
           end
  end.

(** The lines of a file, as successive [readline] calls return them: each
    ends with its newline, except possibly the last. *)
Fixpoint readlines (s : string) : list string :=
  match s with
  | EmptyString => []
  | String c r =>
      if Ascii.eqb c "010"%char then String c EmptyString :: readlines r
      else match readlines r with
           | l :: ls => String c l :: ls
           | [] => [String c EmptyString]
           end
  end.

Definition handle := list string.

Definition newline : string := String "010"%char EmptyString.

(** The header the program looks for: ['*Node\n']. *)
Definition node_header : string := "*Node" +:+ newline.

(** ** Built-in conversions

    [int()], [float()] and [str.format] are Python's, not the program's:
    the development is parametric in them. [None] stands for the
    [ValueError] the conversion raises. *)
Record Builtins := {
  int_of_string : string -> option Z;
  float_of_string : string -> option float;
  string_of_int : Z -> string;
  string_of_float : float -> string
}.

(** ** Clusterer *)

(** One axis of the test of [adjust_nodes]: [abs(a - b) < tolerance]. *)
Definition close (a b tolerance : float) : bool :=
  PrimFloat.ltb (PrimFloat.abs (PrimFloat.sub a b)) tolerance.

(** The local variables the three nested loops update; [dict] is the
    caller's [node_coords_dict], mutated in place. *)
Record cluster_state := {
  dict : gmap Z (list float);
  adjusted_nodes : list Z;
  substitutions : Z
}.

(** Body of the innermost loop, for one [node_2_number]. *)
Definition compare_nodes (tolerance : float) (node_1_number : Z)
    (node_1_coords : list float) (st : cluster_state) (node_2_number : Z)
    : result cluster_state :=
  node_2_coords ← getitem (dict st) node_2_number;
  x1 ← index node_1_coords 0; x2 ← index node_2_coords 0;
  y1 ← index node_1_coords 1; y2 ← index node_2_coords 1;
  z1 ← index node_1_coords 2; z2 ← index node_2_coords 2;
  if close x1 x2 tolerance && close y1 y2 tolerance && close z1 z2 tolerance then
    c ← getitem (dict st) node_1_number;
    Ok {| dict := <[node_2_number := c]> (dict st);
          adjusted_nodes := adjusted_nodes st ++ [node_2_number];
          substitutions := substitutions st + 1 |}
  else Ok st.

(** [for node_2_number in node_group[i + 1:]] *)
Fixpoint adjust_later (tolerance : float) (node_1_number : Z)
    (node_1_coords : list float) (later : list Z) (st : cluster_state)
    : result cluster_state :=
  match later with
  | [] => Ok st
  | node_2_number :: later' =>
      st' ← compare_nodes tolerance node_1_number node_1_coords st node_2_number;
      adjust_later tolerance node_1_number node_1_coords later' st'
  end.

(** [for i, node_1_number in enumerate(node_group)]: the nodes after
    position [i] are the tail of the list. *)
Fixpoint adjust_group (tolerance : float) (node_group : list Z) (st : cluster_state)
    : result cluster_state :=
  match node_group with
  | [] => Ok st
  | node_1_number :: later =>
      node_1_coords ← getitem (dict st) node_1_number;
      st' ← adjust_later tolerance node_1_number node_1_coords later st;
      adjust_group tolerance later st'
  end.

(** [for node_group in relevant_node_groups] *)
Fixpoint adjust_groups (tolerance : float) (relevant_node_groups : list (list Z))
    (st : cluster_state) : result cluster_state :=
  match relevant_node_groups with
  | [] => Ok st
  | node_group :: groups =>
      st' ← adjust_group tolerance node_group st;
      adjust_groups tolerance groups st'
  end.

(** What a call leaves behind: the returned dictionary, the caller's
    dictionary after the in-place updates, and the logged count. *)
Record adjusted := {
  adjusted_coords_dict : gmap Z (list float);
  node_coords_after : gmap Z (list float);
  substitutions_made : Z
}.

Definition adjust_nodes (node_coords_dict : gmap Z (list float))
    (relevant_node_groups : list (list Z)) (tolerance : float) : result adjusted :=
  st ← adjust_groups tolerance relevant_node_groups
         {| dict := node_coords_dict; adjusted_nodes := []; substitutions := 0 |};
  let nodes := elements (list_to_set (adjusted_nodes st) : gset Z) in
  adjusted_coords ← mapM (getitem (dict st)) nodes;
  Ok {| adjusted_coords_dict := list_to_map (zip nodes adjusted_coords);
        node_coords_after := dict st;
        substitutions_made := substitutions st |}.

Section Program.

Context (B : Builtins).

Definition py_int (s : string) : result Z := of_option ValueError (int_of_string B s).
Definition py_float (s : string) : result float := of_option ValueError (float_of_string B s).

(** ** Readers *)

Fixpoint read_node_coordinates_loop
    (node_coords_dict : gmap Z (list float)) (h : handle)
    : result (gmap Z (list float) * handle) :=
  match h with
  | [] => Raise (EndOfInp NodeScan)
  | line :: rest =>
      if startswith line "*" then Ok (node_coords_dict, h)
      else
        let line_stuff := split_comma (rstrip line) in
        s0 ← index line_stuff 0;
        node_number ← py_int s0;
        coords ← mapM py_float (drop 1 line_stuff);
        read_node_coordinates_loop (<[node_number := coords]> node_coords_dict) rest
  end.

Definition read_node_coordinates (h : handle) : result (gmap Z (list float) * handle) :=
  read_node_coordinates_loop ∅ h.

Fixpoint identify_relevant_nodes_loop
    (relevant_node_groups : list (list Z)) (h : handle)
    : result (list (list Z) * handle) :=
  match h with
  | [] => Raise (EndOfInp ElementScan)
  | line :: rest =>
      if startswith line "*" then Ok (relevant_node_groups, h)
      else
        let line_parts := split_comma (rstrip line) in
        group ← mapM py_int (drop 1 line_parts);
        identify_relevant_nodes_loop (relevant_node_groups ++ [group]) rest
  end.

Definition identify_relevant_nodes (h : handle) : result (list (list Z) * handle) :=
  identify_relevant_nodes_loop [] h.

(** The two scans of [parse_old_inp_file]. Every iteration reads at least
    one line, so [length h] iterations are enough ([fuel]). *)
Fixpoint parse_groups_loop (fuel : nat) (inp_el_key : string)
    (relevant_node_groups : list (list Z)) (h : handle) : result (list (list Z)) :=
  match h with
  | [] => Ok relevant_node_groups
  | line :: rest =>
      match fuel with
      | O => Raise OutOfFuel
      | S fuel' =>
          if startswith line inp_el_key then
            '(groups, h') ← identify_relevant_nodes rest;
            parse_groups_loop fuel' inp_el_key (relevant_node_groups ++ groups) h'
          else parse_groups_loop fuel' inp_el_key relevant_node_groups rest
      end
  end.

Fixpoint parse_nodes_loop (fuel : nat)
    (node_coords_dict : gmap Z (list float)) (h : handle) : result (gmap Z (list float)) :=
  match h with
  | [] => Ok node_coords_dict
  | line :: rest =>
      match fuel with
      | O => Raise OutOfFuel
      | S fuel' =>
          if startswith line node_header then
            '(d, h') ← read_node_coordinates rest;
            parse_nodes_loop fuel' d h'
          else parse_nodes_loop fuel' node_coords_dict rest
      end
  end.

Definition parse_old_inp_file (lines : list string) (inp_el_key : string)
    : result (gmap Z (list float) * list (list Z)) :=
  relevant_node_groups ← parse_groups_loop (length lines) inp_el_key [] lines;
  node_coords_dict ← parse_nodes_loop (length lines) ∅ lines;
  Ok (node_coords_dict, relevant_node_groups).

(** ** Rewriter *)

(** ['{0},{1},{2},{3}\n'.format(node_number, *node_coords)] *)
Definition format_node (node_number : Z) (node_coords : list float) : result string :=
  c0 ← index node_coords 0;
  c1 ← index node_coords 1;
  c2 ← index node_coords 2;
  Ok (string_of_int B node_number +:+ "," +:+ string_of_float B c0 +:+ ","
        +:+ string_of_float B c1 +:+ "," +:+ string_of_float B c2 +:+ newline).

(** [int(old_line.split(',')[0])] *)
Definition node_id (old_line : string) : result Z :=
  s0 ← index (split_comma old_line) 0;
  py_int s0.

(** The destination handle is the list [out] of the strings written so
    far; it survives an exception. *)
Fixpoint write_new_node_section_loop (adjusted_node_coords : gmap Z (list float))
    (h : handle) (out : list string) : list string * result handle :=
  match h with
  | [] => (out, Raise (EndOfInp RewriteScan))
  | old_line :: rest =>
      if startswith old_line "*" then (out, Ok h)
      else
        match node_id old_line with
        | Raise e => (out, Raise e)
        | Ok node_number =>
            match adjusted_node_coords !! node_number with
            | Some node_coords =>
                match format_node node_number node_coords with
                | Raise e => (out, Raise e)
                | Ok new_line =>
                    write_new_node_section_loop adjusted_node_coords rest (out ++ [new_line])
                end
            | None =>
                write_new_node_section_loop adjusted_node_coords rest (out ++ [old_line])
            end
        end
  end.

Definition write_new_node_section := write_new_node_section_loop.

Fixpoint write_new_inp_file_loop (fuel : nat) (adjusted_node_coords : gmap Z (list float))
    (h : handle) (out : list string) : list string * result unit :=
  match h with
  | [] => (out, Ok tt)
  | old_line :: rest =>
      match fuel with
      | O => (out, Raise OutOfFuel)
      | S fuel' =>
          if startswith old_line node_header then
            match write_new_node_section adjusted_node_coords rest (out ++ [old_line]) with
            | (out', Raise e) => (out', Raise e)
            | (out', Ok h') => write_new_inp_file_loop fuel' adjusted_node_coords h' out'
            end
          else write_new_inp_file_loop fuel' adjusted_node_coords rest (out ++ [old_line])
      end
  end.

Definition write_new_inp_file (lines : list string)
    (adjusted_node_coords : gmap Z (list float)) : list string * result unit :=
  write_new_inp_file_loop (length lines) adjusted_node_coords lines [].

(** ** Driver *)

(** What a Python call evaluates to, as far as the program goes. *)
Inductive pyval := PyNone | PyInt (n : Z).

Definition element_key (element_types : string) : result string :=
  if String.eqb element_types "cohesives" then Ok "*Element, type=COH3D"
  else if String.eqb element_types "all" then Ok "*Element, type="
  else Raise BadElementTypes.

Definition contents (fs : gmap string string) (path : string) : string :=
  default EmptyString (fs !! path).

(** The file system maps a path string to the text of the file (see the
    conventions at the head of the file for what this leaves out). Opening
    the destination for writing empties it at once; the source handle,
    rewound by [seek(0)], is read again only after that. *)
Definition coord_snap (fs : gmap string string) (old_inp_file_path new_inp_file_path : string)
    (element_types : string) (tolerance : float) : gmap string string * result pyval :=
  match element_key element_types with
  | Raise e => (fs, Raise e)
  | Ok inp_el_key =>
      match fs !! old_inp_file_path with
      | None => (fs, Raise IOError)
      | Some text =>
          match ('(node_coords_dict, relevant_node_groups) ←
                   parse_old_inp_file (readlines text) inp_el_key;
                 adjust_nodes node_coords_dict relevant_node_groups tolerance) with
          | Raise e => (fs, Raise e)
          | Ok adj =>
              let fs1 := <[new_inp_file_path := EmptyString]> fs in
              let '(out, r) :=
                write_new_inp_file (readlines (contents fs1 old_inp_file_path))
                                   (adjusted_coords_dict adj) in
              (<[new_inp_file_path := String.concat EmptyString out]> fs,
               _ ← r; Ok PyNone)
          end
      end
  end.

End Program.

(** ** An instance of the built-ins for the examples

    Python's conversions on the fragment the examples use. Outside the
    fragment these functions are not Python's; no general theorem below
    depends on them.
    - [parse_int]: optional white space, optional sign, decimal digits.
    - [parse_float]: optional white space, optional sign, decimal digits
      with an optional point, no exponent, mantissa below 2^53 and at most
      18 fractional digits; there [float()] is one correctly rounded
      division of two exactly representable numbers.
    - [show_float]: zeros, infinities, nan, and the finite values whose
      shortest round-tripping decimal has a mantissa below 2^53 and at most
      18 fractional digits and is printed in positional notation. *)
Module Py.

Definition digit (c : ascii) : option Z :=
  let n := Z.of_N (N_of_ascii c) in
  if ((48 <=? n) && (n <=? 57))%Z then Some (n - 48) else None.

Fixpoint lstrip (s : string) : string :=
  match s with
  | String c r => if is_space c then lstrip r else s
  | EmptyString => EmptyString
  end.

(** Reads decimal digits up to the end of the string or a point; returns
    the number read, how many digits, and what follows. *)
Fixpoint digits (acc : Z) (count : nat) (s : string) : Z * nat * string :=
  match s with
  | String c r =>
      match digit c with
      | Some d => digits (10 * acc + d) (S count) r
      | None => (acc, count, s)
      end
  | EmptyString => (acc, count, s)
  end.

Definition signed (s : string) : bool * string :=
  match s with
  | String "-" r => (true, r)
  | String "+" r => (false, r)
  | _ => (false, s)
  end.

Definition parse_int (s : string) : option Z :=
  let '(neg, body) := signed (lstrip (rstrip s)) in
  match digits 0 0 body with
  | (n, S _, EmptyString) => Some (if neg then - n else n)
  | _ => None
  end.

(** Exact for [0 <= n < 2^53] and for the powers of ten up to [10^18],
    the only arguments [ratio] passes: both are below [2^63] and have a
    binary64 value of their own. *)
Definition float_of_Z (n : Z) : float := PrimFloat.of_uint63 (Uint63.of_Z n).

Definition ratio (m : Z) (k : nat) : option float :=
  if (0 <=? m)%Z && (m <? 2 ^ 53)%Z && (Nat.leb k 18)
  then Some (PrimFloat.div (float_of_Z m) (float_of_Z (10 ^ Z.of_nat k)))
  else None.

Definition parse_float (s : string) : option float :=
  let '(neg, body) := signed (lstrip (rstrip s)) in
  let '(n, ni, after) := digits 0 0 body in
  let '(m, nf, after') :=
    match after with
    | String "." r => digits n 0 r
    | _ => (n, O, after)
    end in
  match after', (ni + nf)%nat with
  | EmptyString, S _ =>
      x ← ratio m nf; Some (if neg then PrimFloat.opp x else x)
  | _, _ => None
  end.

(** [x * 10^k] for [x = m * 2^e], rounded to the nearest integer, ties to
    even. *)
Definition scaled (m : positive) (e : Z) (k : nat) : Z :=
  let n := Z.pos m * 10 ^ Z.of_nat k in
  if (0 <=? e)%Z then n * 2 ^ e
  else
    let d := 2 ^ (- e) in
    let q := n / d in
    let r := n mod d in
    if ((d <? 2 * r) || ((d =? 2 * r) && Z.odd q))%Z then q + 1 else q.

Fixpoint shortest (x : float) (m : positive) (e : Z) (k : nat) (tries : nat)
    : option (Z * nat) :=
  match tries with
  | O => None
  | S tries' =>
      let n := scaled m e k in
      match ratio n k with
      | Some y => if PrimFloat.eqb y x then Some (n, k) else shortest x m e (S k) tries'
      | None => None
      end
  end.

Definition pad (k : nat) (s : string) : string :=
  String.concat EmptyString (replicate (k - String.length s) "0") +:+ s.

Definition positional (n : Z) (k : nat) : option string :=
  let ds := pretty n in
  let decpt := (Z.of_nat (String.length ds) - Z.of_nat k) in
  if ((-4 <? decpt) && (decpt <=? 16))%Z then
    Some (match k with
          | O => ds +:+ ".0"
          | _ => pretty (n / 10 ^ Z.of_nat k) +:+ "." +:+ pad k (pretty (n mod 10 ^ Z.of_nat k))
          end)
  else None.

Definition show_float (x : float) : string :=
  match Prim2SF x with
  | S754_zero false => "0.0"
  | S754_zero true => "-0.0"
  | S754_infinity false => "inf"
  | S754_infinity true => "-inf"
  | S754_nan => "nan"
  | S754_finite s m e =>
      default "?" (
        '(n, k) ← shortest (PrimFloat.abs x) m e 0 24;
        body ← positional n k;
        Some ((if s then "-" else "") +:+ body))
  end.

Definition builtins : Builtins :=
  {| int_of_string := parse_int;
     float_of_string := parse_float;
     string_of_int := pretty;
     string_of_float := show_float |}.

End Py.


(** * Definitions used to state the properties *)

(** ** The comparisons of a run, in the order the loops make them *)

(** [coincident c1 c2 tolerance]: the test of [adjust_nodes] on two
    coordinate tuples that have their first three components. *)
Definition coincident (c1 c2 : list float) (tolerance : float) : bool :=
  match c1, c2 with
  | x1 :: y1 :: z1 :: _, x2 :: y2 :: z2 :: _ =>
      close x1 x2 tolerance && close y1 y2 tolerance && close z1 z2 tolerance
  | _, _ => false
  end.

(** The pairs (earlier node, later node) of one group: position [i]
    against every position [j > i], for [i] ascending. *)
Fixpoint pairs_of (node_group : list Z) : list (Z * Z) :=
  match node_group with
  | [] => []
  | n1 :: later => map (pair n1) later ++ pairs_of later
  end.

Definition comparisons (relevant_node_groups : list (list Z)) : list (Z * Z) :=
  concat (map pairs_of relevant_node_groups).

(** Effect of one comparison on the table. *)
Definition snap (tolerance : float) (t : gmap Z (list float)) (p : Z * Z)
    : gmap Z (list float) :=
  match t !! p.1, t !! p.2 with
  | Some c1, Some c2 => if coincident c1 c2 tolerance then <[p.2 := c1]> t else t
  | _, _ => t
  end.

(** Whether a comparison overwrites its later node. *)
Definition snaps (tolerance : float) (t : gmap Z (list float)) (p : Z * Z) : bool :=
  match t !! p.1, t !! p.2 with
  | Some c1, Some c2 => coincident c1 c2 tolerance
  | _, _ => false
  end.

(** The table after a sequence of comparisons, and the later nodes that
    were overwritten on the way, in order. *)
Definition run (tolerance : float) (sched : list (Z * Z)) (t : gmap Z (list float))
    : gmap Z (list float) :=
  foldl (snap tolerance) t sched.

Fixpoint targets (tolerance : float) (sched : list (Z * Z)) (t : gmap Z (list float))
    : list Z :=
  match sched with
  | [] => []
  | p :: sched' =>
      (if snaps tolerance t p then [p.2] else []) ++ targets tolerance sched' (snap tolerance t p)
  end.

(** Both nodes of every comparison are in the table with three
    coordinates when the comparison is made. *)
Definition comparable (t : gmap Z (list float)) (p : Z * Z) : Prop :=
  ∃ c1 c2, t !! p.1 = Some c1 ∧ t !! p.2 = Some c2 ∧
           (3 <= length c1)%nat ∧ (3 <= length c2)%nat.

Fixpoint all_comparable (tolerance : float) (sched : list (Z * Z))
    (t : gmap Z (list float)) : Prop :=
  match sched with
  | [] => True
  | p :: sched' => comparable t p ∧ all_comparable tolerance sched' (snap tolerance t p)
  end.

(** [follows tol sched st st']: the loop state [st'] is what the
    comparisons [sched], made from [st], leave. *)
Definition follows (tol : float) (sched : list (Z * Z)) (st st' : cluster_state) : Prop :=
  all_comparable tol sched (dict st) ∧
  dict st' = run tol sched (dict st) ∧
  adjusted_nodes st' = adjusted_nodes st ++ targets tol sched (dict st) ∧
  substitutions st' = substitutions st + Z.of_nat (length (targets tol sched (dict st))).

Definition has3 (t : gmap Z (list float)) (n : Z) : Prop :=
  ∃ c, t !! n = Some c ∧ (3 <= length c)%nat.

(** The scenario table of the specification. *)
Definition scenario_table : gmap Z (list float) :=
  <[1 := [0; 0; 0]%float]> (<[2 := [0.0005; 0; 0]%float]> (<[3 := [5; 5; 5]%float]> ∅)).

(** Two nodes that already share one coordinate. *)
Definition twin_table : gmap Z (list float) :=
  <[1 := [0; 0; 0]%float]> (<[2 := [0; 0; 0]%float]> ∅).

(** Node 1 is within tolerance of node 2 (group 1) and of node 3 (group 2,
    where node 3 comes first). *)
Definition drift_table : gmap Z (list float) :=
  <[1 := [0.0005; 0; 0]%float]> (<[2 := [0.001; 0; 0]%float]> (<[3 := [0; 0; 0]%float]> ∅)).

(** Nodes 1 and 3 are within tolerance of each other; node 2, which stands
    between them in the group, is far from both. *)
Definition apart_table : gmap Z (list float) :=
  <[1 := [0; 0; 0]%float]> (<[2 := [5; 5; 5]%float]> (<[3 := [0.0005; 0; 0]%float]> ∅)).

(** The coincidence test, axis by axis: each of the first three coordinate
    values differs by strictly less than the tolerance in absolute value. *)
Definition within (tol : float) (c1 c2 : list float) : Prop :=
  ∀ i, (i < 3)%nat →
       ∃ x1 x2, c1 !! i = Some x1 ∧ c2 !! i = Some x2 ∧
                PrimFloat.ltb (PrimFloat.abs (PrimFloat.sub x1 x2)) tol = true.

(** The loop state [adjust_nodes] starts from. *)
Definition initial (t : gmap Z (list float)) : cluster_state :=
  {| dict := t; adjusted_nodes := []; substitutions := 0 |}.

(** A chain starts at a node and goes through links: a link [(seg, next)]
    stands for the comparisons [seg] made in the meantime, followed by the
    comparison of the current end of the chain, as earlier node, with
    [next], which becomes the new end. *)
Definition link : Type := list (Z * Z) * Z.

(** The comparisons of a chain, in order. *)
Fixpoint chain_schedule (cur : Z) (links : list link) : list (Z * Z) :=
  match links with
  | [] => []
  | (seg, next) :: links' => seg ++ (cur, next) :: chain_schedule next links'
  end.

(** The node a chain ends at. *)
Fixpoint chain_last (cur : Z) (links : list link) : Z :=
  match links with
  | [] => cur
  | (_, next) :: links' => chain_last next links'
  end.

(** Every link of the chain holds when it is reached: its earlier node was
    not overwritten in the meantime, and the comparison overwrites its
    later node on the table of that moment. *)
Fixpoint chain_ok (tol : float) (t : gmap Z (list float)) (cur : Z) (links : list link)
    : Prop :=
  match links with
  | [] => True
  | (seg, next) :: links' =>
      (cur ∉ targets tol seg t) ∧
      snaps tol (run tol seg t) (cur, next) = true ∧
      chain_ok tol (run tol (seg ++ [(cur, next)]) t) next links'
  end.

(** A, B, C = 1, 2, 3: B is within tolerance of A, and C is within
    tolerance of the coordinate B has once it was snapped to A. *)
Definition chain_table : gmap Z (list float) :=
  <[1 := [0; 0; 0]%float]>
    (<[2 := [0.0005; 0; 0]%float]> (<[3 := [0.0009; 0; 0]%float]> ∅)).

(** A, B, C = 1, 2, 3, each within tolerance of the next as read, C not
    within tolerance of A. *)
Definition stretch_table : gmap Z (list float) :=
  <[1 := [0; 0; 0]%float]>
    (<[2 := [0.0008; 0; 0]%float]> (<[3 := [0.0016; 0; 0]%float]> ∅)).

(** A, B, C, D = 1, 2, 3, 4, all within tolerance of one another. *)
Definition crowd_table : gmap Z (list float) :=
  <[1 := [0; 0; 0]%float]>
    (<[2 := [0.0005; 0; 0]%float]>
       (<[3 := [0.0008; 0; 0]%float]> (<[4 := [0.0009; 0; 0]%float]> ∅))).

(** A, B, C = 1, 2, 3 as in [chain_table], and a node 4 far away. *)
Definition branch_table : gmap Z (list float) :=
  <[4 := [5; 5; 5]%float]> chain_table.


(** For every line, whether it is a node record: a line after a ['*Node\n']
    header and before the next line that starts with ['*']. [inside] tells
    whether the first line is reached inside a node section. *)
Fixpoint node_lines (inside : bool) (lines : list string) : list bool :=
  match lines with
  | [] => []
  | l :: rest =>
      if startswith l "*" then false :: node_lines (startswith l node_header) rest
      else inside :: node_lines inside rest
  end.

Section Views.

Context (B : Builtins).

(** What the rewriter writes for one line. *)
Definition rewrite_line (adj : gmap Z (list float)) (is_node : bool) (line : string)
    : result string :=
  if is_node then
    n ← node_id B line;
    match adj !! n with
    | Some c => format_node B n c
    | None => Ok line
    end
  else Ok line.

(** The rewriter as one pass with a mode flag. *)
Fixpoint rewrite_lines (adj : gmap Z (list float)) (inside : bool) (lines : list string)
    : list string * result unit :=
  match lines with
  | [] => ([], if inside then Raise (EndOfInp RewriteScan) else Ok tt)
  | l :: rest =>
      if startswith l "*" then
        let '(o, res) := rewrite_lines adj (startswith l node_header) rest in (l :: o, res)
      else
        match rewrite_line adj inside l with
        | Ok x => let '(o, res) := rewrite_lines adj inside rest in (x :: o, res)
        | Raise e => ([], Raise e)
        end
  end.

End Views.

(** A file with one node section of three records, the second with a
    trailing field. *)
Definition sample_lines : list string :=
  readlines ("*Heading" +:+ newline +:+
             "*Node" +:+ newline +:+
             "1, 0.0, 0.0, 0.0" +:+ newline +:+
             "2, 0.5, 0.0, 0.0, 7.0" +:+ newline +:+
             "3, 5.0, 5.0, 5.0" +:+ newline +:+
             "*End" +:+ newline).

Definition sample_adjusted : gmap Z (list float) :=
  {[ 2 := [0; 0; 0; 7]%float ]}.

(** A scan of records either stops in front of the first line that starts
    with ['*'], or meets a field it cannot convert, or runs into the end
    of a file that has no such line left. *)
Definition scan_shape {A} (s : scan) (h : handle) (r : result (A * handle)) : Prop :=
  match r with
  | Ok (_, h') =>
      ∃ recs, h = recs ++ h' ∧ Forall (λ l, startswith l "*" = false) recs ∧
              ∃ l r, h' = l :: r ∧ startswith l "*" = true
  | Raise e =>
      e = ValueError ∨ (e = EndOfInp s ∧ Forall (λ l, startswith l "*" = false) h)
  end.

(** A node section is truncated when no line after its header starts with
    ['*']: the scan of the section reaches the end of the file. *)
Definition truncated (lines : list string) : Prop :=
  ∃ pre hdr rest, lines = pre ++ hdr :: rest ∧
                  startswith hdr node_header = true ∧
                  Forall (λ l, startswith l "*" = false) rest.

(** Two node sections: node 1 in the first, node 2 in the second. *)
Definition two_sections : list string :=
  readlines ("*Node" +:+ newline +:+
             "1, 1.0, 1.0, 1.0" +:+ newline +:+
             "*Node" +:+ newline +:+
             "2, 2.0, 2.0, 2.0" +:+ newline +:+
             "*End Part" +:+ newline).

(** A node section cut by the end of the file. *)
Definition cut_text : string :=
  "*Heading" +:+ newline +:+
  "*Node" +:+ newline +:+
  "1, 0.0, 0.0, 0.0" +:+ newline +:+
  "2, 0.0005, 0.0, 0.0" +:+ newline.

Definition cut_fs : gmap string string := {[ "a.inp" := cut_text ]}.

(** A truncated node section that ends with a blank line, and one whose
    last record ends with a comma. *)
Definition blank_cut_text : string :=
  "*Heading" +:+ newline +:+
  "*Node" +:+ newline +:+
  "1, 0.0, 0.0, 0.0" +:+ newline +:+
  newline.

Definition comma_cut_text : string :=
  "*Heading" +:+ newline +:+
  "*Node" +:+ newline +:+
  "1, 0.0, 0.0, 0.0" +:+ newline +:+
  "2, 0.0005, 0.0," +:+ newline.

(** The scenario of the specification as a file; node 2 carries a trailing
    field. *)
Definition scenario_text : string :=
  "*Heading" +:+ newline +:+
  "*Node" +:+ newline +:+
  "1, 0.0, 0.0, 0.0" +:+ newline +:+
  "2, 0.0005, 0.0, 0.0, 9.0" +:+ newline +:+
  "3, 5.0, 5.0, 5.0" +:+ newline +:+
  "*Element, type=COH3D8" +:+ newline +:+
  "1, 1, 2, 3" +:+ newline +:+
  "*End Part" +:+ newline.

Definition scenario_fs : gmap string string := {[ "a.inp" := scenario_text ]}.

Definition scenario_rewritten : string :=
  "*Heading" +:+ newline +:+
  "*Node" +:+ newline +:+
  "1, 0.0, 0.0, 0.0" +:+ newline +:+
  "2,0.0,0.0,0.0" +:+ newline +:+
  "3, 5.0, 5.0, 5.0" +:+ newline +:+
  "*Element, type=COH3D8" +:+ newline +:+
  "1, 1, 2, 3" +:+ newline +:+
  "*End Part" +:+ newline.




(** ** Records and sections of the file *)

Section Records.

Context (B : Builtins).

(** What [read_node_coordinates] makes of one record line. *)
Definition node_record (line : string) : result (Z * list float) :=
  let line_stuff := split_comma (rstrip line) in
  s0 ← index line_stuff 0;
  node_number ← py_int B s0;
  coords ← mapM (py_float B) (drop 1 line_stuff);
  Ok (node_number, coords).

(** What [identify_relevant_nodes] makes of one record line. *)
Definition element_record (line : string) : result (list Z) :=
  mapM (py_int B) (drop 1 (split_comma (rstrip line))).

End Records.

(** [node_coords_dict[node_number] = coords] *)
Definition insert_record (d : gmap Z (list float)) (r : Z * list float)
    : gmap Z (list float) :=
  <[r.1 := r.2]> d.

(** The record lines of the element sections whose header starts with
    [key]: the lines after such a header and before the next line that
    starts with ['*']. [inside] tells whether the first line is reached
    inside such a section. *)
Fixpoint element_records (key : string) (inside : bool) (lines : list string)
    : list string :=
  match lines with
  | [] => []
  | l :: rest =>
      if startswith l "*" then element_records key (startswith l key) rest
      else if inside then l :: element_records key inside rest
      else element_records key inside rest
  end.

(** The record lines of the node sections: the lines after a ['*Node\n']
    header and before the next line that starts with ['*']. *)
Definition node_records (lines : list string) : list string :=
  element_records node_header false lines.

(** An element section is truncated when no line after its header starts
    with ['*']. *)
Definition truncated_elements (key : string) (lines : list string) : Prop :=
  ∃ pre hdr rest, lines = pre ++ hdr :: rest ∧
                  startswith hdr key = true ∧
                  Forall (λ l, startswith l "*" = false) rest.

(** Whether a string holds a comma. *)
Fixpoint has_comma (s : string) : bool :=
  match s with
  | EmptyString => false
  | String c r => Ascii.eqb c ","%char || has_comma r
  end.

(** Two records for node 1, the second with a fourth value. *)
Definition repeated_records : list string :=
  ["1, 0.0, 0.0, 0.0" +:+ newline; "1, 5.0, 5.0, 5.0, 9.0" +:+ newline].

Definition end_line : string := "*End Part" +:+ newline.

(** Two element records; the first element number is not a number. *)
Definition element_lines_sample : list string :=
  ["x7, 1, 2" +:+ newline; "2, 2, 3" +:+ newline].

(** An element section cut by the end of the file. *)
Definition cut_elements_text : string :=
  "*Node" +:+ newline +:+
  "1, 0.0, 0.0, 0.0" +:+ newline +:+
  "*Element, type=COH3D8" +:+ newline +:+
  "1, 1, 2" +:+ newline.

(** Two cohesive element sections around a section of another kind. *)
Definition sections_text : string :=
  "*Node" +:+ newline +:+
  "1, 0.0, 0.0, 0.0" +:+ newline +:+
  "*Element, type=COH3D8" +:+ newline +:+
  "1, 1, 2" +:+ newline +:+
  "*Element, type=C3D8" +:+ newline +:+
  "2, 5, 6" +:+ newline +:+
  "*Element, type=COH3D6" +:+ newline +:+
  "3, 3, 4" +:+ newline +:+
  "*End Part" +:+ newline.

(** A file without element section. *)
Definition plain_text : string :=
  "*Heading" +:+ newline +:+
  "*Node" +:+ newline +:+
  "1, 1.0, 1.0, 1.0" +:+ newline +:+
  "*End Part" +:+ newline.

(** A node section under an upper-case header, which the program does not
    take for a node section. *)
Definition upper_case_text : string :=
  "*NODE" +:+ newline +:+
  "1, 0.0, 0.0, 0.0" +:+ newline +:+
  "2, 0.0, 0.0, 0.0" +:+ newline +:+
  "*Element, type=COH3D8" +:+ newline +:+
  "1, 1, 2" +:+ newline +:+
  "*End Part" +:+ newline.

(** A node section whose second record has an id that is not a number. *)
Definition bad_id_lines : list string :=
  ["*Node" +:+ newline; "1, 0.0, 0.0, 0.0" +:+ newline; "x, 0.0, 0.0, 0.0" +:+ newline;
   "*End Part" +:+ newline].

(** * Lemmas and theorems *)

(** ** Lemmas on the result monad and on tuples *)

Lemma bind_Ok {A C} (m : result A) (f : A → result C) (c : C) :
  (m ≫= f) = Ok c ↔ ∃ a, m = Ok a ∧ f a = Ok c.
Proof.
  destruct m as [a|e]; simpl; split.
  - eauto.
  - intros (a' & [= <-] & H); done.
  - done.
  - intros (a' & [=] & _).
Qed.

Lemma index_Ok {A} (t : list A) (i : nat) (x : A) : index t i = Ok x ↔ t !! i = Some x.
Proof. unfold index. destruct (t !! i); simpl; split; congruence. Qed.

Lemma getitem_Ok (d : gmap Z (list float)) (k : Z) (c : list float) :
  getitem d k = Ok c ↔ d !! k = Some c.
Proof. unfold getitem. destruct (d !! k); simpl; split; congruence. Qed.

Lemma mapM_Ok {A C} (f : A → result C) (l : list A) (k : list C) :
  mapM f l = Ok k ↔ Forall2 (λ x y, f x = Ok y) l k.
Proof.
  revert k. induction l as [|x l IH]; intros k; simpl.
  - split; [intros [= <-]; constructor | by inversion 1].
  - rewrite bind_Ok. split.
    + intros (y & Hy & H). apply bind_Ok in H as (k' & Hk' & [= <-]).
      constructor; [done | by apply IH].
    + inversion 1 as [|? y ? k' Hy Hk]; subst. exists y. split; [done|].
      apply bind_Ok. exists k'. split; [by apply IH | done].
Qed.

Lemma three_coords (c : list float) :
  (3 <= length c)%nat ↔ ∃ x y z r, c = x :: y :: z :: r.
Proof.
  split.
  - destruct c as [|x [|y [|z r]]]; simpl; try lia. eauto.
  - intros (x & y & z & r & ->). simpl. lia.
Qed.

(** ** The loops against the sequence of comparisons *)

Lemma compare_nodes_Ok tol n1 c1 st n2 st' :
  compare_nodes tol n1 c1 st n2 = Ok st' →
  dict st !! n1 = Some c1 →
  comparable (dict st) (n1, n2) ∧
  dict st' = snap tol (dict st) (n1, n2) ∧
  adjusted_nodes st' = adjusted_nodes st ++ (if snaps tol (dict st) (n1, n2) then [n2] else []) ∧
  substitutions st' = substitutions st + (if snaps tol (dict st) (n1, n2) then 1 else 0) ∧
  dict st' !! n1 = Some c1.
Proof.
  unfold compare_nodes. intros H H1.
  apply bind_Ok in H as (c2 & H2%getitem_Ok & H).
  apply bind_Ok in H as (x1 & Hx1%index_Ok & H).
  apply bind_Ok in H as (x2 & Hx2%index_Ok & H).
  apply bind_Ok in H as (y1 & Hy1%index_Ok & H).
  apply bind_Ok in H as (y2 & Hy2%index_Ok & H).
  apply bind_Ok in H as (z1 & Hz1%index_Ok & H).
  apply bind_Ok in H as (z2 & Hz2%index_Ok & H).
  destruct c1 as [|? [|? [|? r1]]]; simplify_eq/=.
  destruct c2 as [|? [|? [|? r2]]]; simplify_eq/=.
  unfold comparable, snap, snaps; simpl. rewrite H1, H2; simpl.
  split; [eexists _, _; repeat split; simpl; lia|].
  destruct (close x1 x2 tol && close y1 y2 tol && close z1 z2 tol).
  - unfold getitem in H. rewrite H1 in H. simplify_eq/=.
    repeat split; try done.
    destruct (decide (n2 = n1)) as [->|]; [by rewrite lookup_insert_eq|by rewrite lookup_insert_ne].
  - simplify_eq. repeat split; try done; [by rewrite app_nil_r | lia].
Qed.

Lemma run_app tol s1 s2 t : run tol (s1 ++ s2) t = run tol s2 (run tol s1 t).
Proof. apply foldl_app. Qed.

Lemma targets_app tol s1 s2 t :
  targets tol (s1 ++ s2) t = targets tol s1 t ++ targets tol s2 (run tol s1 t).
Proof.
  revert t. induction s1 as [|p s1 IH]; intros t; simpl; [done|].
  by rewrite IH, app_assoc.
Qed.

Lemma all_comparable_app tol s1 s2 t :
  all_comparable tol (s1 ++ s2) t ↔
  all_comparable tol s1 t ∧ all_comparable tol s2 (run tol s1 t).
Proof.
  revert t. induction s1 as [|p s1 IH]; intros t; simpl; [tauto|].
  rewrite IH. tauto.
Qed.

Lemma follows_nil tol st : follows tol [] st st.
Proof. unfold follows; simpl. rewrite app_nil_r. repeat split; lia. Qed.

Lemma follows_app tol s1 s2 st1 st2 st3 :
  follows tol s1 st1 st2 → follows tol s2 st2 st3 → follows tol (s1 ++ s2) st1 st3.
Proof.
  intros (Hc1 & Hd1 & Ha1 & Hs1) (Hc2 & Hd2 & Ha2 & Hs2).
  unfold follows. rewrite all_comparable_app, run_app, targets_app, length_app.
  rewrite <- Hd1. repeat split; try done.
  - by rewrite Ha2, Ha1, app_assoc.
  - lia.
Qed.

Lemma adjust_later_Ok tol n1 c1 later st st' :
  adjust_later tol n1 c1 later st = Ok st' →
  dict st !! n1 = Some c1 →
  follows tol (map (pair n1) later) st st' ∧ dict st' !! n1 = Some c1.
Proof.
  revert st. induction later as [|n2 later IH]; intros st; simpl.
  - intros [= <-] H1. split; [apply follows_nil | done].
  - intros H H1. apply bind_Ok in H as (st1 & Hcmp & H).
    apply compare_nodes_Ok in Hcmp as (Hc & Hd & Ha & Hs & H1'); [|done].
    destruct (IH _ H H1') as [Hf H1'']. split; [|done].
    apply (follows_app tol [(n1, n2)] _ st st1 st'); [|done].
    unfold follows; simpl. rewrite app_nil_r.
    repeat split; try done.
    rewrite Hs. destruct (snaps tol (dict st) (n1, n2)); simpl; lia.
Qed.

Lemma adjust_group_Ok tol node_group st st' :
  adjust_group tol node_group st = Ok st' → follows tol (pairs_of node_group) st st'.
Proof.
  revert st. induction node_group as [|n1 later IH]; intros st; simpl.
  - intros [= <-]. apply follows_nil.
  - intros H. apply bind_Ok in H as (c1 & H1%getitem_Ok & H).
    apply bind_Ok in H as (st1 & Hl & H).
    apply adjust_later_Ok in Hl as [Hf _]; [|done].
    eapply follows_app; eauto.
Qed.

Lemma adjust_groups_Ok tol groups st st' :
  adjust_groups tol groups st = Ok st' → follows tol (comparisons groups) st st'.
Proof.
  revert st. induction groups as [|g groups IH]; intros st; simpl.
  - intros [= <-]. apply follows_nil.
  - intros H. apply bind_Ok in H as (st1 & Hg & H).
    unfold comparisons; simpl. eapply follows_app; [by apply adjust_group_Ok|].
    by apply IH.
Qed.

Lemma adjust_groups_app tol g1 g2 st :
  adjust_groups tol (g1 ++ g2) st = adjust_groups tol g1 st ≫= adjust_groups tol g2.
Proof.
  revert st. induction g1 as [|g g1 IH]; intros st; simpl; [done|].
  destruct (adjust_group tol g st) as [st1|e]; simpl; [apply IH | done].
Qed.

(** A comparison touches its later node only; the keys of the table never
    change. *)
Lemma snap_lookup_ne tol t p n : n ≠ p.2 → snap tol t p !! n = t !! n.
Proof.
  intros Hn. unfold snap. destruct (t !! p.1), (t !! p.2); try done.
  destruct (coincident _ _ _); [by rewrite lookup_insert_ne | done].
Qed.

Lemma snap_is_Some tol t p n : is_Some (snap tol t p !! n) ↔ is_Some (t !! n).
Proof.
  unfold snap. destruct (t !! p.1) as [c1|] eqn:E1, (t !! p.2) as [c2|] eqn:E2; try done.
  destruct (coincident _ _ _); [|done].
  destruct (decide (n = p.2)) as [->|]; [|by rewrite lookup_insert_ne].
  rewrite lookup_insert_eq, E2. split; eauto.
Qed.

Lemma snap_target tol t p : snaps tol t p = true → snap tol t p !! p.2 = t !! p.1.
Proof.
  unfold snaps, snap. destruct (t !! p.1), (t !! p.2); try done.
  intros ->. by rewrite lookup_insert_eq.
Qed.

Lemma snap_idle tol t p : snaps tol t p = false → snap tol t p = t.
Proof.
  unfold snaps, snap. destruct (t !! p.1), (t !! p.2); try done. by intros ->.
Qed.

Lemma run_is_Some tol sched t n : is_Some (run tol sched t !! n) ↔ is_Some (t !! n).
Proof.
  revert t. induction sched as [|p sched IH]; intros t; simpl; [done|].
  unfold run in *; simpl. by rewrite IH, snap_is_Some.
Qed.

Lemma run_lookup_frame tol sched t n :
  n ∉ sched.*2 → run tol sched t !! n = t !! n.
Proof.
  revert t. induction sched as [|p sched IH]; intros t; simpl; [done|].
  intros Hn. apply not_elem_of_cons in Hn as [Hp Hn].
  unfold run in *; simpl. rewrite IH by done. by apply snap_lookup_ne.
Qed.

Lemma run_lookup_changed tol sched t n :
  run tol sched t !! n ≠ t !! n → n ∈ targets tol sched t.
Proof.
  revert t. induction sched as [|p sched IH]; intros t; unfold run in *; simpl; [done|].
  intros Hn. destruct (snaps tol t p) eqn:Es; simpl.
  - destruct (decide (n = p.2)) as [->|Hne]; [left|].
    right. apply IH. by rewrite snap_lookup_ne.
  - apply IH. rewrite snap_idle in Hn |- * by done. done.
Qed.

Lemma run_lookup_untargeted tol sched t n :
  n ∉ targets tol sched t → run tol sched t !! n = t !! n.
Proof.
  revert t. induction sched as [|p sched IH]; intros t; unfold run in *; simpl; [done|].
  intros Hn. apply not_elem_of_app in Hn as [Hp Hn]. rewrite IH by done.
  destruct (snaps tol t p) eqn:Es.
  - apply snap_lookup_ne. intros ->. apply Hp. by left.
  - by rewrite snap_idle.
Qed.

Lemma targets_schedule tol sched t n :
  n ∈ targets tol sched t ↔
  ∃ pre a post, sched = pre ++ (a, n) :: post ∧ snaps tol (run tol pre t) (a, n) = true.
Proof.
  revert t. induction sched as [|[a b] sched IH]; intros t; simpl.
  - split; [by intros ?%elem_of_nil|]. intros (pre & a & post & H & _).
    by destruct pre.
  - rewrite elem_of_app, IH. split.
    + intros [H|(pre & a' & post & -> & Hs)].
      * destruct (snaps tol t (a, b)) eqn:Es; [|by apply elem_of_nil in H].
        apply list_elem_of_singleton in H as ->. by exists [], a, sched.
      * by exists ((a, b) :: pre), a', post.
    + intros (pre & a' & post & H & Hs). destruct pre as [|p pre]; simplify_eq/=.
      * left. rewrite Hs. by left.
      * right. by exists pre, a', post.
Qed.

Lemma targets_is_Some tol sched t n :
  n ∈ targets tol sched t → is_Some (run tol sched t !! n).
Proof.
  intros (pre & a & post & -> & Hs)%targets_schedule.
  rewrite run_app. apply run_is_Some.
  unfold snaps in Hs; simpl in Hs.
  destruct (run tol pre t !! a); [|done]. destruct (run tol pre t !! n); [eauto|done].
Qed.

Lemma mapM_total {A C} (f : A → result C) (l : list A) :
  (∀ x, x ∈ l → ∃ y, f x = Ok y) → ∃ k, mapM f l = Ok k.
Proof.
  induction l as [|x l IH]; intros H; simpl; [by eexists|].
  destruct (H x) as [y Hy]; [by left|].
  destruct IH as [k Hk]; [intros; apply H; by right|].
  exists (y :: k). rewrite Hy; simpl. by rewrite Hk.
Qed.

Lemma zip_lookup_Forall2 {A C} (P : A → C → Prop) (l : list A) (k : list C) x y :
  Forall2 P l k → (x, y) ∈ zip l k → P x y.
Proof.
  induction 1 as [|a c l k Hac _ IH]; simpl; [by intros ?%elem_of_nil|].
  intros [[= -> ->]|?]%elem_of_cons; auto.
Qed.

Lemma zip_elem_of_Forall2 {A C} (P : A → C → Prop) (l : list A) (k : list C) x :
  Forall2 P l k → x ∈ l → ∃ y, (x, y) ∈ zip l k.
Proof.
  induction 1 as [|a c l k Hac _ IH]; simpl; [by intros ?%elem_of_nil|].
  intros [->|Hx]%elem_of_cons; [exists c; by left|].
  destruct (IH Hx) as [y Hy]. exists y. by right.
Qed.

(** What a successful call of [adjust_nodes] returns, in terms of the
    comparisons it made. *)
Lemma adjust_nodes_Ok t groups tol r :
  adjust_nodes t groups tol = Ok r →
  all_comparable tol (comparisons groups) t ∧
  node_coords_after r = run tol (comparisons groups) t ∧
  substitutions_made r = Z.of_nat (length (targets tol (comparisons groups) t)) ∧
  ∀ n c, adjusted_coords_dict r !! n = Some c ↔
         n ∈ targets tol (comparisons groups) t ∧
         run tol (comparisons groups) t !! n = Some c.
Proof.
  unfold adjust_nodes. intros H.
  apply bind_Ok in H as (st & Hst & H).
  apply adjust_groups_Ok in Hst as (Hc & Hd & Ha & Hs); simpl in *.
  apply bind_Ok in H as (coords & Hm%mapM_Ok & [= <-]); simpl.
  rewrite Hd in *. rewrite Ha in *.
  split; [done|]. split; [done|]. split; [lia|].
  set (nodes := elements (list_to_set (targets tol (comparisons groups) t) : gset Z)) in *.
  assert (Hlen : length nodes = length coords) by by eapply Forall2_length.
  assert (Hnd : NoDup (zip nodes coords).*1).
  { rewrite fst_zip by lia. apply NoDup_elements. }
  intros n c. rewrite <- elem_of_list_to_map by done. split.
  - intros Hin. split.
    + apply elem_of_zip_l in Hin. apply elem_of_elements in Hin.
      by apply elem_of_list_to_set in Hin.
    + apply (zip_lookup_Forall2 _ _ _ _ _ Hm) in Hin. by apply getitem_Ok.
  - intros [Hn Hc']. assert (Hn' : n ∈ nodes).
    { apply elem_of_elements. by apply elem_of_list_to_set. }
    destruct (zip_elem_of_Forall2 _ _ _ _ Hm Hn') as [y Hy].
    pose proof (zip_lookup_Forall2 _ _ _ _ _ Hm Hy) as Hy'%getitem_Ok.
    by simplify_eq.
Qed.

(** ** The clusterer returns when the nodes of the groups are in the table *)

Lemma coincident_three c1 c2 tol :
  coincident c1 c2 tol = true → (3 <= length c1)%nat ∧ (3 <= length c2)%nat.
Proof.
  destruct c1 as [|? [|? [|? ?]]]; try done.
  destruct c2 as [|? [|? [|? ?]]]; try done. simpl. lia.
Qed.

Lemma snap_has3 tol t p n : has3 t n → has3 (snap tol t p) n.
Proof.
  intros (c & Hc & Hl). unfold snap.
  destruct (t !! p.1) as [c1|] eqn:E1, (t !! p.2) as [c2|] eqn:E2; try by exists c.
  destruct (coincident c1 c2 tol) eqn:Ec; [|by exists c].
  destruct (decide (n = p.2)) as [->|]; [|exists c; by rewrite lookup_insert_ne].
  exists c1. rewrite lookup_insert_eq. split; [done|].
  by apply coincident_three in Ec as [? _].
Qed.

Lemma run_has3 tol sched t n : has3 t n → has3 (run tol sched t) n.
Proof.
  revert t. induction sched as [|p sched IH]; intros t H; [done|].
  unfold run in *; simpl. by apply IH, snap_has3.
Qed.

Lemma compare_nodes_total tol n1 c1 st n2 :
  dict st !! n1 = Some c1 → (3 <= length c1)%nat → has3 (dict st) n2 →
  ∃ st', compare_nodes tol n1 c1 st n2 = Ok st'.
Proof.
  intros H1 (x1 & y1 & z1 & r1 & ->)%three_coords
    (c2 & H2 & (x2 & y2 & z2 & r2 & ->)%three_coords).
  unfold compare_nodes, getitem. rewrite H2; simpl.
  destruct (_ && _); [rewrite H1|]; simpl; eauto.
Qed.

Lemma adjust_later_total tol n1 c1 later st :
  dict st !! n1 = Some c1 → (3 <= length c1)%nat →
  (∀ n, n ∈ later → has3 (dict st) n) →
  ∃ st', adjust_later tol n1 c1 later st = Ok st'.
Proof.
  revert st. induction later as [|n2 later IH]; intros st H1 Hl H; simpl; [eauto|].
  destruct (compare_nodes_total tol n1 c1 st n2) as [st1 Hcmp]; [done|done|apply H; by left|].
  rewrite Hcmp; simpl.
  apply compare_nodes_Ok in Hcmp as (_ & Hd & _ & _ & H1'); [|done].
  apply IH; [done|done|]. intros n Hn. rewrite Hd. apply snap_has3, H. by right.
Qed.

Lemma adjust_group_total tol node_group st :
  (∀ n, n ∈ node_group → has3 (dict st) n) →
  ∃ st', adjust_group tol node_group st = Ok st'.
Proof.
  revert st. induction node_group as [|n1 later IH]; intros st H; simpl; [eauto|].
  destruct (H n1) as (c1 & H1 & Hl); [by left|].
  unfold getitem at 1. rewrite H1; simpl.
  destruct (adjust_later_total tol n1 c1 later st) as [st1 Hst1];
    [done|done|intros; apply H; by right|].
  rewrite Hst1; simpl.
  apply adjust_later_Ok in Hst1 as [(_ & Hd & _) _]; [|done].
  apply IH. intros n Hn. rewrite Hd. apply run_has3, H. by right.
Qed.

Lemma adjust_groups_total tol groups st :
  (∀ g n, g ∈ groups → n ∈ g → has3 (dict st) n) →
  ∃ st', adjust_groups tol groups st = Ok st'.
Proof.
  revert st. induction groups as [|g groups IH]; intros st H; simpl; [eauto|].
  destruct (adjust_group_total tol g st) as [st1 Hst1]; [intros; eapply H; [by left|done]|].
  rewrite Hst1; simpl.
  apply adjust_group_Ok in Hst1 as (_ & Hd & _).
  apply IH. intros g' n Hg Hn. rewrite Hd. apply run_has3. eapply H; [by right|done].
Qed.

Lemma adjust_nodes_total t groups tol :
  (∀ g n, g ∈ groups → n ∈ g → has3 t n) →
  ∃ r, adjust_nodes t groups tol = Ok r.
Proof.
  intros H. unfold adjust_nodes.
  destruct (adjust_groups_total tol groups
              {| dict := t; adjusted_nodes := []; substitutions := 0 |} H) as [st Hst].
  rewrite Hst; simpl.
  apply adjust_groups_Ok in Hst as (_ & Hd & Ha & _); simpl in *.
  destruct (mapM_total (getitem (dict st))
              (elements (list_to_set (adjusted_nodes st) : gset Z))) as [k Hk].
  - intros n Hn%elem_of_elements%elem_of_list_to_set.
    rewrite Ha in Hn. apply targets_is_Some in Hn as [c Hc].
    exists c. apply getitem_Ok. by rewrite Hd.
  - rewrite Hk; simpl. eauto.
Qed.

(** ** Properties of the clusterer *)

Lemma ltb_irrefl (x : float) : PrimFloat.ltb x x = false.
Proof.
  rewrite ltb_spec. unfold SFltb.
  destruct (Prim2SF x) as [s| s| |s m e]; simpl; try done.
  - by destruct s.
  - destruct s; rewrite ?Z.compare_refl, ?Pos.compare_refl; try done;
      rewrite ?Pos.compare_cont_refl; done.
Qed.

Lemma close_exact (x1 x2 tol : float) :
  PrimFloat.abs (PrimFloat.sub x1 x2) = tol → close x1 x2 tol = false.
Proof. unfold close. intros ->. apply ltb_irrefl. Qed.

Lemma all_comparable_at tol pre p post t :
  all_comparable tol (pre ++ p :: post) t → comparable (run tol pre t) p.
Proof. rewrite all_comparable_app. simpl. tauto. Qed.

(** C2. On the table {1:(0,0,0), 2:(0.0005,0,0), 3:(5,5,5)} with the single
    group [1,2,3] and tolerance 0.001, [adjust_nodes] returns exactly
    {2:(0,0,0)}: node 2 now has the coordinate (0,0,0) in the table, nodes 1
    and 3 keep theirs, and one node is reported changed (one substitution
    is logged). *)
Theorem scenario_single_group :
  ∃ r, adjust_nodes scenario_table [[1; 2; 3]] 0.001%float = Ok r ∧
       adjusted_coords_dict r = {[ 2 := [0; 0; 0]%float ]} ∧
       node_coords_after r !! 2 = Some [0; 0; 0]%float ∧
       node_coords_after r !! 3 = scenario_table !! 3 ∧
       node_coords_after r !! 3 = Some [5; 5; 5]%float ∧
       node_coords_after r !! 1 = scenario_table !! 1 ∧
       size (adjusted_coords_dict r) = 1%nat ∧
       substitutions_made r = 1.
Proof. eexists. split; [vm_compute; reflexivity|]. vm_compute. repeat split. Qed.

(** C5, as stated, fails: with nodes 1 and 2 both at (0,0,0) in one group,
    node 2 is reported changed although its final coordinate is its as-read
    coordinate. *)
Lemma changed_set_not_exact :
  ∃ r, adjust_nodes twin_table [[1; 2]] 0.001%float = Ok r ∧
       2 ∈ dom (adjusted_coords_dict r) ∧
       node_coords_after r !! 2 = twin_table !! 2 ∧
       ¬ (∀ n, n ∈ dom (adjusted_coords_dict r) ↔ node_coords_after r !! n ≠ twin_table !! n).
Proof.
  eexists. split; [vm_compute; reflexivity|].
  assert (H2 : 2 ∈ dom (adjusted_coords_dict
    {| adjusted_coords_dict := {[ 2 := [0; 0; 0]%float ]};
       node_coords_after := twin_table; substitutions_made := 1 |})).
  { simpl. rewrite dom_singleton_L. set_solver. }
  split; [exact H2|]. split; [reflexivity|].
  intros H. apply H in H2. by apply H2.
Qed.

(** C5, amended. The changed-node set is exactly the set of nodes that were
    overwritten: the later node of a comparison that found its pair
    coincident on the table as it stood at that moment. It contains every
    node whose final coordinate differs from its as-read coordinate (and
    possibly nodes whose coordinate did not change), and the coordinate
    recorded for each is the one in the table after all groups have been
    processed. *)
Theorem changed_set_overwritten t groups tol r :
  adjust_nodes t groups tol = Ok r →
  node_coords_after r = run tol (comparisons groups) t ∧
  (∀ n, n ∈ dom (adjusted_coords_dict r) ↔
        ∃ pre a post, comparisons groups = pre ++ (a, n) :: post ∧
                      snaps tol (run tol pre t) (a, n) = true) ∧
  (∀ n, node_coords_after r !! n ≠ t !! n → n ∈ dom (adjusted_coords_dict r)) ∧
  (∀ n c, adjusted_coords_dict r !! n = Some c → node_coords_after r !! n = Some c).
Proof.
  intros (_ & Hd & _ & Hadj)%adjust_nodes_Ok.
  split; [done|]. rewrite Hd.
  assert (Hdom : ∀ n, n ∈ dom (adjusted_coords_dict r) ↔
                      n ∈ targets tol (comparisons groups) t).
  { intros n. rewrite elem_of_dom. split.
    - intros [c Hc]. by apply Hadj in Hc as [? _].
    - intros Hn. destruct (targets_is_Some _ _ _ _ Hn) as [c Hc].
      exists c. by apply Hadj. }
  split; [|split].
  - intros n. by rewrite Hdom, targets_schedule.
  - intros n Hn. by apply Hdom, run_lookup_changed.
  - intros n c Hc. by apply Hadj in Hc as [_ ?].
Qed.

Lemma changed_set_overwritten_witness :
  ∃ r, adjust_nodes scenario_table [[1; 2; 3]] 0.001%float = Ok r ∧
       ∀ n c, adjusted_coords_dict r !! n = Some c → node_coords_after r !! n = Some c.
Proof.
  eexists. split; [vm_compute; reflexivity|].
  eapply (changed_set_overwritten scenario_table [[1; 2; 3]] 0.001%float).
  vm_compute; reflexivity.
Defined.

(** C1, as stated, fails: nodes 1 and 2 are in one group and differ by less
    than the tolerance on every axis, node 2 is snapped to node 1, and yet
    they do not have equal coordinates in the output, because node 1 is
    itself snapped to node 3 afterwards. *)
Lemma coincident_pair_not_equal :
  ∃ r, adjust_nodes drift_table [[1; 2]; [3; 1]] 0.001%float = Ok r ∧
       snaps 0.001%float drift_table (1, 2) = true ∧
       node_coords_after r !! 1 = Some [0; 0; 0]%float ∧
       node_coords_after r !! 2 = Some [0.0005; 0; 0]%float ∧
       node_coords_after r !! 1 ≠ node_coords_after r !! 2.
Proof.
  eexists. split; [vm_compute; reflexivity|].
  split; [vm_compute; reflexivity|].
  split; [vm_compute; reflexivity|].
  split; [vm_compute; reflexivity|].
  intros H. apply (f_equal (λ o, Prim2SF (default 0%float (o ≫= head)))) in H.
  vm_compute in H. discriminate H.
Qed.

Lemma coincident_within c1 c2 tol : coincident c1 c2 tol = true ↔ within tol c1 c2.
Proof.
  unfold within. split.
  - destruct c1 as [|x1 [|y1 [|z1 r1]]]; try done.
    destruct c2 as [|x2 [|y2 [|z2 r2]]]; try done. simpl.
    intros [[Hx Hy]%andb_true_iff Hz]%andb_true_iff i Hi.
    destruct i as [|[|[|i]]]; simpl; [eauto..|lia].
  - intros H.
    destruct (H 0%nat) as (x1 & x2 & Hx1 & Hx2 & Hx); [lia|].
    destruct (H 1%nat) as (y1 & y2 & Hy1 & Hy2 & Hy); [lia|].
    destruct (H 2%nat) as (z1 & z2 & Hz1 & Hz2 & Hz); [lia|].
    destruct c1 as [|? [|? [|? r1]]]; simplify_eq/=.
    destruct c2 as [|? [|? [|? r2]]]; simplify_eq/=.
    unfold close. by rewrite Hx, Hy, Hz.
Qed.

Lemma within_exact c1 c2 tol i x1 x2 :
  (i < 3)%nat → c1 !! i = Some x1 → c2 !! i = Some x2 →
  PrimFloat.abs (PrimFloat.sub x1 x2) = tol → ¬ within tol c1 c2.
Proof.
  intros Hi H1 H2 Hx H. destruct (H i Hi) as (y1 & y2 & ? & ? & Hlt).
  simplify_eq. by rewrite ltb_irrefl in Hlt.
Qed.

(** C1, amended. When the loops compare an earlier node [a] with a later
    node [b] of a group, both are in the table; on the values [ca], [cb]
    the table holds at that moment, [b] is overwritten with [ca] if and only
    if each of the first three coordinates differs by strictly less than the
    tolerance in absolute value, so a pair differing by exactly the
    tolerance on an axis is not snapped. Right after an overwriting
    comparison the two nodes have equal coordinates, and they have equal
    coordinates in the output when neither is overwritten by a subsequent
    comparison. [run tol pre t] is the table after the comparisons [pre]
    made before this one, [targets tol post _] the nodes the comparisons
    [post] made after it overwrite; the output table is the one after all
    of them. *)
Theorem compared_pair_snapped t groups tol r pre a b post :
  adjust_nodes t groups tol = Ok r →
  comparisons groups = pre ++ (a, b) :: post →
  node_coords_after r = run tol (comparisons groups) t ∧
  ∃ ca cb,
    run tol pre t !! a = Some ca ∧ run tol pre t !! b = Some cb ∧
    (within tol ca cb →
       run tol (pre ++ [(a, b)]) t = <[b := ca]> (run tol pre t) ∧
       run tol (pre ++ [(a, b)]) t !! a = run tol (pre ++ [(a, b)]) t !! b) ∧
    (¬ within tol ca cb → run tol (pre ++ [(a, b)]) t = run tol pre t) ∧
    (∀ i x1 x2, (i < 3)%nat → ca !! i = Some x1 → cb !! i = Some x2 →
                PrimFloat.abs (PrimFloat.sub x1 x2) = tol → ¬ within tol ca cb) ∧
    (within tol ca cb →
     a ∉ targets tol post (run tol (pre ++ [(a, b)]) t) →
     b ∉ targets tol post (run tol (pre ++ [(a, b)]) t) →
       node_coords_after r !! a = Some ca ∧ node_coords_after r !! b = Some ca).
Proof.
  intros (Hc & Hd & _ & _)%adjust_nodes_Ok Hs. split; [done|]. rewrite Hs in *.
  apply all_comparable_at in Hc as (ca & cb & Ha & Hb & _ & _); simpl in *.
  exists ca, cb. split; [done|]. split; [done|].
  assert (Hstep : run tol (pre ++ [(a, b)]) t = snap tol (run tol pre t) (a, b)).
  { by rewrite run_app. }
  assert (Hsnap : within tol ca cb →
            snap tol (run tol pre t) (a, b) = <[b := ca]> (run tol pre t)).
  { intros Hw%coincident_within. unfold snap; simpl. by rewrite Ha, Hb, Hw. }
  assert (Hboth : ∀ m : gmap Z (list float),
            m !! a = Some ca → <[b := ca]> m !! a = Some ca).
  { intros m Hm. destruct (decide (a = b)) as [->|];
      [by rewrite lookup_insert_eq | by rewrite lookup_insert_ne]. }
  split; [|split; [|split]].
  - intros Hw. rewrite Hstep, (Hsnap Hw). split; [done|].
    by rewrite (Hboth _ Ha), lookup_insert_eq.
  - intros Hw. rewrite Hstep. apply snap_idle. unfold snaps; simpl.
    rewrite Ha, Hb. destruct (coincident ca cb tol) eqn:E; [|done].
    by apply coincident_within in E.
  - intros i x1 x2. apply within_exact.
  - intros Hw Hna Hnb. rewrite Hd.
    replace (pre ++ (a, b) :: post) with ((pre ++ [(a, b)]) ++ post)
      by by rewrite <- app_assoc.
    rewrite run_app, (run_lookup_untargeted _ _ _ a), (run_lookup_untargeted _ _ _ b)
      by done.
    rewrite Hstep, (Hsnap Hw). by rewrite (Hboth _ Ha), lookup_insert_eq.
Qed.

Lemma compared_pair_snapped_witness :
  ∃ r, adjust_nodes apart_table [[1; 2; 3]] 0.001%float = Ok r ∧
       comparisons [[1; 2; 3]] = [(1, 2)] ++ (1, 3) :: [(2, 3)] ∧
       node_coords_after r !! 1 = Some [0; 0; 0]%float ∧
       node_coords_after r !! 3 = Some [0; 0; 0]%float.
Proof.
  pose (r := {| adjusted_coords_dict := {[ 3 := [0; 0; 0]%float ]};
                node_coords_after := <[3 := [0; 0; 0]%float]> apart_table;
                substitutions_made := 1 |}).
  assert (Hr : adjust_nodes apart_table [[1; 2; 3]] 0.001%float = Ok r)
    by (vm_compute; reflexivity).
  exists r. split; [exact Hr|]. split; [reflexivity|].
  destruct (compared_pair_snapped apart_table [[1; 2; 3]] 0.001%float r
              [(1, 2)] 1 3 [(2, 3)] Hr eq_refl)
    as (_ & ca & cb & Ha & Hb & _ & _ & _ & Hout).
  assert (Hca : ca = [0; 0; 0]%float) by (vm_compute in Ha; congruence).
  assert (Hcb : cb = [0.0005; 0; 0]%float) by (vm_compute in Hb; congruence).
  subst ca cb. apply Hout.
  - apply coincident_within. vm_compute; reflexivity.
  - vm_compute. apply not_elem_of_nil.
  - vm_compute. apply not_elem_of_nil.
Defined.

(** *** Propagation along a chain *)

Lemma adjust_nodes_groups t groups tol r :
  adjust_nodes t groups tol = Ok r →
  ∃ st, adjust_groups tol groups (initial t) = Ok st ∧ node_coords_after r = dict st.
Proof.
  unfold adjust_nodes. intros (st & Hst & H)%bind_Ok.
  apply bind_Ok in H as (k & _ & [= <-]). by exists st.
Qed.

Lemma snaps_has3 tol t a b :
  snaps tol t (a, b) = true → has3 t a ∧ has3 t b ∧ snap tol t (a, b) !! b = t !! a.
Proof.
  intros Hs. split; [|split; [|by apply (snap_target tol t (a, b))]];
    unfold snaps in Hs; simpl in Hs;
    destruct (t !! a) as [ca|] eqn:Ea; try done;
    destruct (t !! b) as [cb|] eqn:Eb; try done;
    apply coincident_three in Hs as [? ?]; by eexists.
Qed.

Lemma chain_schedule_app cur l1 l2 :
  chain_schedule cur (l1 ++ l2)
    = chain_schedule cur l1 ++ chain_schedule (chain_last cur l1) l2.
Proof.
  revert cur. induction l1 as [|[seg next] l1 IH]; intros cur; simpl; [done|].
  by rewrite IH, <- app_assoc.
Qed.

Lemma chain_ok_app tol t cur l1 l2 :
  chain_ok tol t cur (l1 ++ l2) → chain_ok tol t cur l1.
Proof.
  revert t cur. induction l1 as [|[seg next] l1 IH]; intros t cur; simpl; [done|].
  intros (? & ? & ?). eauto.
Qed.

Lemma chain_ok_reaches tol t cur links c0 :
  t !! cur = Some c0 → chain_ok tol t cur links →
  run tol (chain_schedule cur links) t !! chain_last cur links = Some c0.
Proof.
  revert t cur. induction links as [|[seg next] links IH]; intros t cur Hc; simpl; [done|].
  intros (Hcur & Hs & Hok).
  replace (seg ++ (cur, next) :: chain_schedule next links)
    with ((seg ++ [(cur, next)]) ++ chain_schedule next links)
    by by rewrite <- app_assoc.
  rewrite run_app. apply IH; [|done].
  rewrite run_app. unfold run at 1; simpl.
  pose proof (snap_target tol _ (cur, next) Hs) as Ht. simpl in Ht.
  by rewrite Ht, run_lookup_untargeted.
Qed.

(** C3, as stated, fails. A = 1, B = 2, C = 3; in the three runs A and B
    pass the test in the first group, B and C pass it as read, and A is
    never compared with C. In the first run C is out of reach of the
    coordinate B holds once it was snapped to A, and keeps its own. In the
    second B is overwritten again, with D's coordinate, before it is
    compared with C, and C ends with D's. In the third C is overwritten
    with A's coordinate and afterwards with D's. *)
Lemma coincident_chain_not_converging :
  (∃ r, adjust_nodes stretch_table [[1; 2]; [2; 3]] 0.001%float = Ok r ∧
        snaps 0.001%float stretch_table (1, 2) = true ∧
        snaps 0.001%float stretch_table (2, 3) = true ∧
        ((1, 3) ∉ comparisons [[1; 2]; [2; 3]]) ∧
        node_coords_after r !! 1 = Some [0; 0; 0]%float ∧
        node_coords_after r !! 3 = Some [0.0016; 0; 0]%float ∧
        node_coords_after r !! 3 ≠ node_coords_after r !! 1) ∧
  (∃ r, adjust_nodes crowd_table [[1; 2]; [4; 2]; [2; 3]] 0.001%float = Ok r ∧
        snaps 0.001%float crowd_table (1, 2) = true ∧
        snaps 0.001%float crowd_table (2, 3) = true ∧
        snaps 0.001%float (run 0.001%float [(1, 2); (4, 2)] crowd_table) (2, 3) = true ∧
        ((1, 3) ∉ comparisons [[1; 2]; [4; 2]; [2; 3]]) ∧
        node_coords_after r !! 1 = Some [0; 0; 0]%float ∧
        node_coords_after r !! 3 = Some [0.0009; 0; 0]%float ∧
        node_coords_after r !! 3 ≠ node_coords_after r !! 1) ∧
  (∃ r, adjust_nodes crowd_table [[1; 2]; [2; 3]; [4; 3]] 0.001%float = Ok r ∧
        snaps 0.001%float crowd_table (1, 2) = true ∧
        snaps 0.001%float crowd_table (2, 3) = true ∧
        snaps 0.001%float (run 0.001%float [(1, 2)] crowd_table) (2, 3) = true ∧
        ((1, 3) ∉ comparisons [[1; 2]; [2; 3]; [4; 3]]) ∧
        node_coords_after r !! 1 = Some [0; 0; 0]%float ∧
        node_coords_after r !! 3 = Some [0.0009; 0; 0]%float ∧
        node_coords_after r !! 3 ≠ node_coords_after r !! 1).
Proof.
  assert (Hne : ∀ (m : gmap Z (list float)) x,
            m !! 1 = Some [0; 0; 0]%float → m !! 3 = Some [x; 0; 0]%float →
            Prim2SF x ≠ Prim2SF 0%float → m !! 3 ≠ m !! 1).
  { intros m x H1 H3 Hx H. rewrite H1, H3 in H.
    apply (f_equal (λ o, Prim2SF (default 0%float (o ≫= head)))) in H. done. }
  split; [|split].
  - eexists. split; [vm_compute; reflexivity|].
    do 2 (split; [vm_compute; reflexivity|]).
    split; [unfold comparisons; simpl; rewrite ?not_elem_of_cons;
           repeat split; try discriminate; apply not_elem_of_nil|].
    split; [vm_compute; reflexivity|]. split; [vm_compute; reflexivity|].
    eapply Hne; [vm_compute; reflexivity..|]. vm_compute. discriminate.
  - eexists. split; [vm_compute; reflexivity|].
    do 3 (split; [vm_compute; reflexivity|]).
    split; [unfold comparisons; simpl; rewrite ?not_elem_of_cons;
           repeat split; try discriminate; apply not_elem_of_nil|].
    split; [vm_compute; reflexivity|]. split; [vm_compute; reflexivity|].
    eapply Hne; [vm_compute; reflexivity..|]. vm_compute. discriminate.
  - eexists. split; [vm_compute; reflexivity|].
    do 3 (split; [vm_compute; reflexivity|]).
    split; [unfold comparisons; simpl; rewrite ?not_elem_of_cons;
           repeat split; try discriminate; apply not_elem_of_nil|].
    split; [vm_compute; reflexivity|]. split; [vm_compute; reflexivity|].
    eapply Hne; [vm_compute; reflexivity..|]. vm_compute. discriminate.
Qed.

(** C3, amended. A chain is a sequence of comparisons (n0, n1), (n1, n2),
    ..., made in this order among any others, of any groups. When every
    link overwrites its later node on the table of the moment it is made
    (the later node is within tolerance of the coordinate the earlier node
    holds then, not of its as-read one) and no node of the chain is
    overwritten between the link that reaches it and the link that leaves
    it, every node reached holds the coordinate [c0] the first node had
    when the chain started, and has it in the final table unless a
    comparison made after its link overwrites it. For A, B, C: B is snapped
    to A, B is not overwritten before it is compared with C, C passes the
    test against the coordinate B then holds, and C ends with A's
    coordinate. *)
Theorem chain_propagates t groups tol r pre first links tail c0 :
  adjust_nodes t groups tol = Ok r →
  comparisons groups = pre ++ chain_schedule first links ++ tail →
  run tol pre t !! first = Some c0 →
  chain_ok tol (run tol pre t) first links →
  ∀ reached rest, links = reached ++ rest →
    run tol (pre ++ chain_schedule first reached) t !! chain_last first reached = Some c0 ∧
    (chain_last first reached
       ∉ targets tol (chain_schedule (chain_last first reached) rest ++ tail)
                 (run tol (pre ++ chain_schedule first reached) t) →
     node_coords_after r !! chain_last first reached = Some c0).
Proof.
  intros (_ & Hd & _ & _)%adjust_nodes_Ok Hs H0 Hok reached rest ->.
  apply chain_ok_app in Hok.
  assert (Hr : run tol (pre ++ chain_schedule first reached) t
                 !! chain_last first reached = Some c0).
  { rewrite run_app. by apply chain_ok_reaches. }
  split; [done|]. intros Hn.
  rewrite Hd, Hs, chain_schedule_app, <- app_assoc, app_assoc, run_app.
  by rewrite run_lookup_untargeted.
Qed.

Lemma chain_propagates_witness :
  ∃ r, adjust_nodes branch_table [[1; 2; 4]; [2; 3]] 0.001%float = Ok r ∧
       comparisons [[1; 2; 4]; [2; 3]]
         = [] ++ chain_schedule 1 [([], 2); ([(1, 4); (2, 4)], 3)] ++ [] ∧
       node_coords_after r !! 3 = Some [0; 0; 0]%float.
Proof.
  pose (r := {| adjusted_coords_dict :=
                  <[2 := [0; 0; 0]%float]> {[ 3 := [0; 0; 0]%float ]};
                node_coords_after :=
                  <[2 := [0; 0; 0]%float]> (<[3 := [0; 0; 0]%float]> branch_table);
                substitutions_made := 2 |}).
  assert (Hr : adjust_nodes branch_table [[1; 2; 4]; [2; 3]] 0.001%float = Ok r)
    by (vm_compute; reflexivity).
  exists r. split; [exact Hr|]. split; [reflexivity|].
  apply (chain_propagates branch_table [[1; 2; 4]; [2; 3]] 0.001%float r
           [] 1 [([], 2); ([(1, 4); (2, 4)], 3)] [] [0; 0; 0]%float Hr eq_refl
           ltac:(vm_compute; reflexivity)
           ltac:(vm_compute; repeat split; apply not_elem_of_nil)
           [([], 2); ([(1, 4); (2, 4)], 3)] [] eq_refl).
  vm_compute. apply not_elem_of_nil.
Defined.

(** *** Running the clusterer again *)




(** ** The rewriter, line by line *)

Section Files.

Context (B : Builtins).

Lemma header_starts_with_star l : startswith l node_header = true → startswith l "*" = true.
Proof.
  unfold startswith. destruct l as [|c l]; [done|].
  change (String.prefix node_header (String c l))
    with (if ascii_dec "*" c then String.prefix ("Node" +:+ newline) l else false).
  change (String.prefix "*" (String c l))
    with (if ascii_dec "*" c then String.prefix "" l else false).
  destruct (ascii_dec "*" c); [by destruct l | done].
Qed.

Lemma write_section_acc adj h out :
  write_new_node_section_loop B adj h out =
  let '(o, res) := write_new_node_section_loop B adj h [] in (out ++ o, res).
Proof.
  revert out. induction h as [|l rest IH]; intros out; simpl.
  - by rewrite app_nil_r.
  - destruct (startswith l "*"); [by rewrite app_nil_r|].
    destruct (node_id B l) as [n|e]; [|by rewrite app_nil_r].
    destruct (adj !! n) as [c|].
    + destruct (format_node B n c) as [x|e]; [|by rewrite app_nil_r].
      rewrite (IH (out ++ [x])), (IH [x]).
      destruct (write_new_node_section_loop B adj rest []) as [o res].
      by rewrite <- !app_assoc.
    + rewrite (IH (out ++ [l])), (IH [l]).
      destruct (write_new_node_section_loop B adj rest []) as [o res].
      by rewrite <- !app_assoc.
Qed.

Lemma write_section_spec adj h :
  match write_new_node_section_loop B adj h [] with
  | (o1, Raise e) => rewrite_lines B adj true h = (o1, Raise e)
  | (o1, Ok h') =>
      (length h' <= length h)%nat ∧
      (∃ l r, h' = l :: r ∧ startswith l "*" = true) ∧
      ∀ inside, rewrite_lines B adj true h =
                let '(o2, res) := rewrite_lines B adj inside h' in (o1 ++ o2, res)
  end.
Proof.
  induction h as [|l rest IH]; simpl; [done|].
  destruct (startswith l "*") eqn:El.
  - split; [done|]. split; [by eexists _, _|]. intros inside. simpl. rewrite El.
    by destruct (rewrite_lines B adj (startswith l node_header) rest).
  - unfold rewrite_line. destruct (node_id B l) as [n|e]; simpl; [|done].
    assert (Hstep : ∀ x,
      match write_new_node_section_loop B adj rest [x] with
      | (o1, Raise e) =>
          (let '(o, res) := rewrite_lines B adj true rest in (x :: o, res)) = (o1, Raise e)
      | (o1, Ok h') =>
          (length h' <= S (length rest))%nat ∧
          (∃ l r, h' = l :: r ∧ startswith l "*" = true) ∧
          ∀ inside, (let '(o, res) := rewrite_lines B adj true rest in (x :: o, res)) =
                    let '(o2, res) := rewrite_lines B adj inside h' in (o1 ++ o2, res)
      end).
    { intros x. rewrite write_section_acc.
      destruct (write_new_node_section_loop B adj rest []) as [o1 [h'|e]]; simpl.
      - destruct IH as (Hlen & Hstar & Hrw). split; [lia|]. split; [done|].
        intros inside. rewrite (Hrw inside).
        by destruct (rewrite_lines B adj inside h').
      - by rewrite IH. }
    destruct (adj !! n) as [c|]; [|apply Hstep].
    destruct (format_node B n c) as [x|e]; [apply Hstep|done].
Qed.

Lemma write_inp_file_spec fuel adj h out :
  (length h <= fuel)%nat →
  write_new_inp_file_loop B fuel adj h out =
  let '(o, res) := rewrite_lines B adj false h in (out ++ o, res).
Proof.
  revert h out. induction fuel as [|fuel IH]; intros [|l rest] out Hlen; simpl in *;
    try lia; try by rewrite app_nil_r.
  destruct (startswith l node_header) eqn:Eh.
  - rewrite (header_starts_with_star _ Eh).
    unfold write_new_node_section. rewrite write_section_acc.
    pose proof (write_section_spec adj rest) as Hs.
    destruct (write_new_node_section_loop B adj rest []) as [o1 [h'|e]].
    + destruct Hs as (Hl & _ & Hrw). rewrite (Hrw false), IH by lia.
      destruct (rewrite_lines B adj false h') as [o2 res].
      by rewrite <- !app_assoc.
    + rewrite Hs. by rewrite <- app_assoc.
  - rewrite IH by lia. destruct (startswith l "*"); simpl.
    + destruct (rewrite_lines B adj false rest). by rewrite <- app_assoc.
    + destruct (rewrite_lines B adj false rest). by rewrite <- app_assoc.
Qed.

Lemma write_new_inp_file_spec lines adj :
  write_new_inp_file B lines adj = rewrite_lines B adj false lines.
Proof.
  unfold write_new_inp_file. rewrite write_inp_file_spec by done.
  by destruct (rewrite_lines B adj false lines).
Qed.

Lemma rewrite_lines_pointwise adj inside lines o res :
  rewrite_lines B adj inside lines = (o, res) →
  (res = Ok tt → length o = length lines) ∧
  ∀ k line x, lines !! k = Some line → o !! k = Some x →
    ∃ is_node, node_lines inside lines !! k = Some is_node ∧
               rewrite_line B adj is_node line = Ok x.
Proof.
  revert inside o res. induction lines as [|l rest IH]; intros inside o res; simpl.
  - intros [= <- <-]. split; [done|]. by intros k line x ?.
  - destruct (startswith l "*") eqn:El.
    + destruct (rewrite_lines B adj (startswith l node_header) rest) as [o' res'] eqn:E.
      intros [= <- <-]. destruct (IH _ _ _ E) as [Hlen Hpt].
      split; [intros; simpl; f_equal; auto|].
      intros [|k] line x Hl Hx; simplify_eq/=; [by exists false|]. eauto.
    + destruct (rewrite_line B adj inside l) as [x0|e] eqn:Ex.
      * destruct (rewrite_lines B adj inside rest) as [o' res'] eqn:E.
        intros [= <- <-]. destruct (IH _ _ _ E) as [Hlen Hpt].
        split; [intros; simpl; f_equal; auto|].
        intros [|k] line x Hl Hx; simplify_eq/=; [by exists inside|]. eauto.
      * intros [= <- <-]. split; [done|]. by intros k line x ? ?.
Qed.

End Files.

(** Only nodes of the groups are ever overwritten. *)
Lemma pairs_of_elem a b g : (a, b) ∈ pairs_of g → a ∈ g ∧ b ∈ g.
Proof.
  induction g as [|n later IH]; simpl; [by intros ?%elem_of_nil|].
  intros [Hin|Hin]%elem_of_app.
  - apply list_elem_of_fmap in Hin as (b' & [= -> ->] & Hb). split; [by left|by right].
  - destruct (IH Hin). split; by right.
Qed.

Lemma comparisons_elem a b groups :
  (a, b) ∈ comparisons groups → ∃ g, g ∈ groups ∧ a ∈ g ∧ b ∈ g.
Proof.
  unfold comparisons. induction groups as [|g groups IH]; simpl; [by intros ?%elem_of_nil|].
  intros [Hin|Hin]%elem_of_app.
  - exists g. split; [by left|]. by apply pairs_of_elem.
  - destruct (IH Hin) as (g' & Hg' & Hab). exists g'. split; [by right|done].
Qed.

Lemma adjusted_in_group t groups tol r n c :
  adjust_nodes t groups tol = Ok r →
  adjusted_coords_dict r !! n = Some c →
  ∃ g, g ∈ groups ∧ n ∈ g.
Proof.
  intros (_ & _ & _ & Hadj)%adjust_nodes_Ok Hc.
  apply Hadj in Hc as [(pre & a & post & Hs & _)%targets_schedule _].
  destruct (comparisons_elem a n groups) as (g & Hg & _ & Hn); [|by exists g].
  rewrite Hs. apply elem_of_app. right. by left.
Qed.

Section Rewriter.

Context (B : Builtins).

(** C6. The rewriter's frame. Whatever was written for line k of the source
    is that line, byte for byte, when the line is not a node record (it is
    outside every node section, or is a header or terminator), or when it is
    a node record whose id is not a key of the changed-node dictionary; in
    particular when the id belongs to no element group. When the rewriter
    returns, it has written as many lines as it has read. *)
Theorem rewriter_frame lines adj out res :
  write_new_inp_file B lines adj = (out, res) →
  (res = Ok tt → length out = length lines) ∧
  (∀ k line x, lines !! k = Some line → out !! k = Some x →
     node_lines false lines !! k = Some false ∨
       (∀ n, node_id B line = Ok n → adj !! n = None) →
     x = line) ∧
  (∀ t groups tol r, adjust_nodes t groups tol = Ok r → adj = adjusted_coords_dict r →
     ∀ k line x n, lines !! k = Some line → out !! k = Some x →
       node_id B line = Ok n → (∀ g, g ∈ groups → n ∉ g) → x = line).
Proof.
  rewrite write_new_inp_file_spec. intros [Hlen Hpt]%rewrite_lines_pointwise.
  assert (Hframe : ∀ k line x, lines !! k = Some line → out !! k = Some x →
            (∀ n, node_id B line = Ok n → adj !! n = None) → x = line).
  { intros k line x Hl Hx Hn. destruct (Hpt k line x Hl Hx) as (f & _ & Hrw).
    unfold rewrite_line in Hrw. destruct f; [|by simplify_eq].
    apply bind_Ok in Hrw as (n & Hid & Hrw). rewrite (Hn n Hid) in Hrw. by simplify_eq. }
  split; [done|]. split.
  - intros k line x Hl Hx [Hf|Hn]; [|by eapply Hframe].
    destruct (Hpt k line x Hl Hx) as (f & Hf' & Hrw).
    rewrite Hf in Hf'. unfold rewrite_line in Hrw. by simplify_eq.
  - intros t groups tol r Hr -> k line x n Hl Hx Hid Hn.
    eapply Hframe; [done..|]. intros n' Hid'. rewrite Hid in Hid'. simplify_eq.
    destruct (adjusted_coords_dict r !! n') as [c|] eqn:Ec; [|done].
    destruct (adjusted_in_group _ _ _ _ _ _ Hr Ec) as (g & Hg & Hin).
    by destruct (Hn g Hg).
Qed.

(** C7. For a node record whose id is a key of the changed-node dictionary,
    the rewriter writes a new line made of the id and the first three
    coordinate values recorded for it, whatever the original line held
    after the id and however many values the recorded tuple has. *)
Theorem rewriter_changed_line lines adj out k line n c :
  write_new_inp_file B lines adj = (out, Ok tt) →
  lines !! k = Some line →
  node_lines false lines !! k = Some true →
  node_id B line = Ok n →
  adj !! n = Some c →
  ∃ x y z extra,
    c = x :: y :: z :: extra ∧
    out !! k = Some (string_of_int B n +:+ "," +:+ string_of_float B x +:+ ","
                       +:+ string_of_float B y +:+ "," +:+ string_of_float B z
                       +:+ newline).
Proof.
  rewrite write_new_inp_file_spec. intros [Hlen Hpt]%rewrite_lines_pointwise Hl Hf Hid Hc.
  destruct (lookup_lt_is_Some_2 out k) as [o Ho].
  { rewrite Hlen by done. by eapply lookup_lt_Some. }
  destruct (Hpt k line o Hl Ho) as (f & Hf' & Hrw).
  rewrite Hf in Hf'. simplify_eq. unfold rewrite_line in Hrw.
  rewrite Hid in Hrw; simpl in Hrw. rewrite Hc in Hrw.
  unfold format_node in Hrw.
  apply bind_Ok in Hrw as (x & Hx%index_Ok & Hrw).
  apply bind_Ok in Hrw as (y & Hy%index_Ok & Hrw).
  apply bind_Ok in Hrw as (z & Hz%index_Ok & Hrw).
  destruct c as [|? [|? [|? extra]]]; simplify_eq/=.
  by eexists _, _, _, _.
Qed.

End Rewriter.

Lemma rewriter_frame_witness :
  ∃ out, write_new_inp_file Py.builtins sample_lines sample_adjusted = (out, Ok tt) ∧
         length out = length sample_lines ∧
         ∀ x, out !! 4%nat = Some x → x = "3, 5.0, 5.0, 5.0" +:+ newline.
Proof.
  eexists. split; [vm_compute; reflexivity|].
  destruct (rewriter_frame Py.builtins sample_lines sample_adjusted
              ["*Heading" +:+ newline; "*Node" +:+ newline;
               "1, 0.0, 0.0, 0.0" +:+ newline; "2,0.0,0.0,0.0" +:+ newline;
               "3, 5.0, 5.0, 5.0" +:+ newline; "*End" +:+ newline] (Ok tt))
    as (Hlen & Hframe & _); [vm_compute; reflexivity|].
  split; [by apply Hlen|].
  intros x Hx. apply (Hframe 4%nat ("3, 5.0, 5.0, 5.0" +:+ newline) x);
    [vm_compute; reflexivity | exact Hx |].
  right. intros n Hn. vm_compute in Hn. simplify_eq. vm_compute; reflexivity.
Defined.

Lemma rewriter_changed_line_witness :
  ∃ out, write_new_inp_file Py.builtins sample_lines sample_adjusted = (out, Ok tt) ∧
         sample_lines !! 3%nat = Some ("2, 0.5, 0.0, 0.0, 7.0" +:+ newline) ∧
         out !! 3%nat = Some ("2,0.0,0.0,0.0" +:+ newline).
Proof.
  eexists. split; [vm_compute; reflexivity|]. split; [vm_compute; reflexivity|].
  destruct (rewriter_changed_line Py.builtins sample_lines sample_adjusted
              ["*Heading" +:+ newline; "*Node" +:+ newline;
               "1, 0.0, 0.0, 0.0" +:+ newline; "2,0.0,0.0,0.0" +:+ newline;
               "3, 5.0, 5.0, 5.0" +:+ newline; "*End" +:+ newline]
              3%nat ("2, 0.5, 0.0, 0.0, 7.0" +:+ newline) 2 [0; 0; 0; 7]%float)
    as (x & y & z & extra & Hc & Ho); [vm_compute; reflexivity..|].
  vm_compute. reflexivity.
Defined.

(** ** The reader, section by section *)

Lemma prefix_cons a s1 l :
  String.prefix (String a s1) l = true → ∃ l', l = String a l' ∧ String.prefix s1 l' = true.
Proof.
  destruct l as [|b l']; [done|].
  change (String.prefix (String a s1) (String b l'))
    with (if ascii_dec a b then String.prefix s1 l' else false).
  destruct (ascii_dec a b) as [->|]; [eauto|done].
Qed.

Lemma element_key_star element_types key l :
  element_key element_types = Ok key → startswith l key = true → startswith l "*" = true.
Proof.
  unfold element_key, startswith. intros Hk Hl.
  destruct (String.eqb element_types "cohesives");
    [|destruct (String.eqb element_types "all")]; simplify_eq;
    apply prefix_cons in Hl as (l' & -> & _); destruct l'; by vm_compute.
Qed.

Lemma element_key_not_node element_types key l :
  element_key element_types = Ok key → startswith l node_header = true →
  startswith l key = false.
Proof.
  unfold element_key, startswith. intros Hk Hl.
  change node_header with (String "*" (String "N" ("ode" +:+ newline))) in Hl.
  apply prefix_cons in Hl as (l1 & -> & Hl).
  apply prefix_cons in Hl as (l2 & -> & _).
  destruct (String.eqb element_types "cohesives");
    [|destruct (String.eqb element_types "all")]; simplify_eq; by vm_compute.
Qed.

Lemma split_comma_first s : ∃ f fs, split_comma s = f :: fs.
Proof.
  induction s as [|c s (f & fs & IH)]; simpl; [by eexists _, _|].
  destruct (Ascii.eqb c ","); [by eexists _, _|]. rewrite IH. by eexists _, _.
Qed.

(** Splitting a list at its first line that starts with ['*']. *)
Lemma split_at_star (recs h1 pre : list string) hdr rest :
  recs ++ h1 = pre ++ hdr :: rest →
  Forall (λ l, startswith l "*" = false) recs →
  startswith hdr "*" = true →
  ∃ pre', h1 = pre' ++ hdr :: rest ∧ (length pre' <= length pre)%nat.
Proof.
  revert pre. induction recs as [|x recs IH]; intros pre Heq Hrecs Hhdr; simpl in *.
  - by exists pre.
  - apply Forall_cons in Hrecs as [Hx Hrecs]. destruct pre as [|y pre]; simplify_eq/=.
    + congruence.
    + destruct (IH pre) as (pre' & -> & Hlen); [done..|]. exists pre'. split; [done|lia].
Qed.

Section Reader.

Context (B : Builtins).

Lemma py_int_Raise s e : py_int B s = Raise e → e = ValueError.
Proof. unfold py_int. destruct (int_of_string B s); simpl; congruence. Qed.

Lemma py_float_Raise s e : py_float B s = Raise e → e = ValueError.
Proof. unfold py_float. destruct (float_of_string B s); simpl; congruence. Qed.

Lemma mapM_Raise {A C} (f : A → result C) (l : list A) e :
  (∀ x e', f x = Raise e' → e' = ValueError) → mapM f l = Raise e → e = ValueError.
Proof.
  intros Hf. induction l as [|x l IH]; simpl; [done|].
  destruct (f x) as [y|e'] eqn:E; simpl; [|intros [= <-]; eauto].
  destruct (mapM f l) as [k|e'']; simpl; [done|]. intros [= <-]. by apply IH.
Qed.

Lemma scan_shape_cons {A} s l rest (r : result (A * handle)) :
  startswith l "*" = false → scan_shape s rest r → scan_shape s (l :: rest) r.
Proof.
  intros Hl. destruct r as [[a h']|e]; simpl.
  - intros (recs & -> & Hrecs & Hh'). exists (l :: recs). by repeat constructor.
  - intros [?|[? ?]]; [by left|right]. split; [done|by constructor].
Qed.

Lemma read_node_coordinates_shape d h :
  scan_shape NodeScan h (read_node_coordinates_loop B d h).
Proof.
  revert d. induction h as [|l rest IH]; intros d; simpl.
  - right. by split.
  - destruct (startswith l "*") eqn:El.
    + exists []. split; [done|]. split; [constructor|]. by exists l, rest.
    + destruct (split_comma_first (rstrip l)) as (f & fs & ->). simpl.
      destruct (py_int B f) as [n|e] eqn:En; simpl;
        [|left; by eapply py_int_Raise].
      rewrite drop_0.
      destruct (mapM (py_float B) fs) as [cs|e] eqn:Ec; simpl.
      * apply scan_shape_cons; [done|apply IH].
      * left. eapply mapM_Raise; [|done]. apply py_float_Raise.
Qed.

Lemma identify_relevant_nodes_shape gs h :
  scan_shape ElementScan h (identify_relevant_nodes_loop B gs h).
Proof.
  revert gs. induction h as [|l rest IH]; intros gs; simpl.
  - right. by split.
  - destruct (startswith l "*") eqn:El.
    + exists []. split; [done|]. split; [constructor|]. by exists l, rest.
    + destruct (mapM (py_int B) (drop 1 (split_comma (rstrip l)))) as [g|e] eqn:Eg; simpl.
      * apply scan_shape_cons; [done|apply IH].
      * left. eapply mapM_Raise; [|done]. apply py_int_Raise.
Qed.

(** In front of a line that starts with ['*'] a scan cannot run into the
    end of the file, and it stops at that line or before. *)
Lemma scan_shape_before_star {A} s pre hdr rest (r : result (A * handle)) :
  scan_shape s (pre ++ hdr :: rest) r → startswith hdr "*" = true →
  match r with
  | Ok (_, h') => ∃ pre', h' = pre' ++ hdr :: rest ∧ (length pre' <= length pre)%nat
  | Raise e => e = ValueError
  end.
Proof.
  intros Hr Hhdr. destruct r as [[a h']|e]; simpl in *.
  - destruct Hr as (recs & Heq & Hrecs & _). symmetry in Heq.
    by eapply split_at_star.
  - destruct Hr as [?|[_ Hall]]; [done|].
    apply Forall_app in Hall as [_ Hall]. apply Forall_cons in Hall as [? _]. congruence.
Qed.

Lemma scan_shape_length {A} s h (r : result (A * handle)) a h' :
  scan_shape s h r → r = Ok (a, h') → (length h' <= length h)%nat ∧ ∀ l, l ∈ h' → l ∈ h.
Proof.
  intros Hr ->. destruct Hr as (recs & -> & _). rewrite length_app. split; [lia|].
  intros l Hl. apply elem_of_app. by right.
Qed.

(** *** The node scan of [parse_old_inp_file] *)

Lemma parse_nodes_no_header fuel d h :
  (length h <= fuel)%nat →
  (∀ l, l ∈ h → startswith l node_header = false) →
  parse_nodes_loop B fuel d h = Ok d.
Proof.
  revert h. induction fuel as [|fuel IH]; intros [|l rest] Hlen Hno; simpl in *;
    try done; try lia.
  rewrite (Hno l) by by left. apply IH; [lia|]. intros l' Hl'. apply Hno. by right.
Qed.

Lemma parse_nodes_last fuel d pre hdr rest tbl :
  (length (pre ++ hdr :: rest) <= fuel)%nat →
  startswith hdr node_header = true →
  (∀ l, l ∈ rest → startswith l node_header = false) →
  parse_nodes_loop B fuel d (pre ++ hdr :: rest) = Ok tbl →
  ∃ h', read_node_coordinates B rest = Ok (tbl, h').
Proof.
  revert d pre. induction fuel as [|fuel IH]; intros d pre Hlen Hhdr Hno;
    [destruct pre; simpl in Hlen; lia|].
  destruct pre as [|l pre]; simpl in *.
  - rewrite Hhdr. unfold read_node_coordinates.
    pose proof (read_node_coordinates_shape ∅ rest) as Hshape.
    destruct (read_node_coordinates_loop B ∅ rest) as [[d1 h1]|e] eqn:E; simpl; [|done].
    destruct (scan_shape_length _ _ _ _ _ Hshape eq_refl) as [Hl1 Hsub].
    rewrite parse_nodes_no_header by (lia || auto). intros [= <-]. by exists h1.
  - destruct (startswith l node_header) eqn:El; [|apply IH; (lia || done)].
    unfold read_node_coordinates at 1.
    pose proof (read_node_coordinates_shape ∅ (pre ++ hdr :: rest)) as Hshape.
    apply scan_shape_before_star in Hshape; [|by apply header_starts_with_star].
    destruct (read_node_coordinates_loop B ∅ (pre ++ hdr :: rest)) as [[d1 h1]|e];
      simpl; [|done].
    destruct Hshape as (pre' & -> & Hpre'). apply IH; [|done..].
    rewrite length_app in *. simpl in *. lia.
Qed.

Lemma parse_nodes_truncated fuel d pre hdr rest :
  (length (pre ++ hdr :: rest) <= fuel)%nat →
  startswith hdr node_header = true →
  Forall (λ l, startswith l "*" = false) rest →
  ∃ e, parse_nodes_loop B fuel d (pre ++ hdr :: rest) = Raise e ∧
       (e = ValueError ∨ e = EndOfInp NodeScan).
Proof.
  revert d pre. induction fuel as [|fuel IH]; intros d pre Hlen Hhdr Hrest;
    [destruct pre; simpl in Hlen; lia|].
  destruct pre as [|l pre]; simpl in *.
  - rewrite Hhdr. unfold read_node_coordinates.
    pose proof (read_node_coordinates_shape ∅ rest) as Hshape.
    destruct (read_node_coordinates_loop B ∅ rest) as [[d1 h1]|e]; simpl in *.
    + destruct Hshape as (recs & -> & _ & l & r & -> & Hl).
      apply Forall_app in Hrest as [_ Hrest]. apply Forall_cons in Hrest as [? _].
      congruence.
    + exists e. split; [done|]. destruct Hshape as [?|[? _]]; auto.
  - destruct (startswith l node_header) eqn:El; [|apply IH; (lia || done)].
    unfold read_node_coordinates at 1.
    pose proof (read_node_coordinates_shape ∅ (pre ++ hdr :: rest)) as Hshape.
    apply scan_shape_before_star in Hshape; [|by apply header_starts_with_star].
    destruct (read_node_coordinates_loop B ∅ (pre ++ hdr :: rest)) as [[d1 h1]|e]; simpl.
    + destruct Hshape as (pre' & -> & Hpre'). apply IH; [|done..].
      rewrite length_app in *. simpl in *. lia.
    + exists e. split; [done|by left].
Qed.

(** *** The element scan of [parse_old_inp_file] *)

Lemma parse_groups_no_key fuel key gs h :
  (length h <= fuel)%nat →
  (∀ l, l ∈ h → startswith l key = false) →
  parse_groups_loop B fuel key gs h = Ok gs.
Proof.
  revert h. induction fuel as [|fuel IH]; intros [|l rest] Hlen Hno; simpl in *;
    try done; try lia.
  rewrite (Hno l) by by left. apply IH; [lia|]. intros l' Hl'. apply Hno. by right.
Qed.

Lemma parse_groups_truncated fuel key gs pre hdr rest :
  (length (pre ++ hdr :: rest) <= fuel)%nat →
  (∀ l, startswith l key = true → startswith l "*" = true) →
  startswith hdr "*" = true →
  startswith hdr key = false →
  Forall (λ l, startswith l "*" = false) rest →
  (∃ gs', parse_groups_loop B fuel key gs (pre ++ hdr :: rest) = Ok gs') ∨
  parse_groups_loop B fuel key gs (pre ++ hdr :: rest) = Raise ValueError.
Proof.
  intros Hlen Hkey Hstar Hhdr Hrest.
  revert gs pre Hlen. induction fuel as [|fuel IH]; intros gs pre Hlen;
    [destruct pre; simpl in Hlen; lia|].
  destruct pre as [|l pre]; simpl in *.
  - rewrite Hhdr. left. exists gs. apply parse_groups_no_key; [lia|].
    intros l Hl. rewrite Forall_forall in Hrest. specialize (Hrest l Hl).
    destruct (startswith l key) eqn:E; [|done]. apply Hkey in E. congruence.
  - destruct (startswith l key) eqn:El; [|apply IH; lia].
    unfold identify_relevant_nodes.
    pose proof (identify_relevant_nodes_shape [] (pre ++ hdr :: rest)) as Hshape.
    apply scan_shape_before_star in Hshape; [|done].
    destruct (identify_relevant_nodes_loop B [] (pre ++ hdr :: rest)) as [[g1 h1]|e]; simpl.
    + destruct Hshape as (pre' & -> & Hpre'). apply IH.
      rewrite length_app in *. simpl in *. lia.
    + right. by subst.
Qed.

(** *** The iteration bound is never met *)

Lemma parse_groups_fuel fuel key gs h :
  (length h <= fuel)%nat → parse_groups_loop B fuel key gs h ≠ Raise OutOfFuel.
Proof.
  revert gs h. induction fuel as [|fuel IH]; intros gs [|l rest] Hlen; simpl in *;
    try done; try lia.
  destruct (startswith l key); [|apply IH; lia].
  unfold identify_relevant_nodes.
  pose proof (identify_relevant_nodes_shape [] rest) as Hshape.
  destruct (identify_relevant_nodes_loop B [] rest) as [[g1 h1]|e] eqn:E; simpl.
  - destruct (scan_shape_length _ _ _ _ _ Hshape eq_refl) as [Hl1 _]. apply IH. lia.
  - destruct Hshape as [->|[-> _]]; done.
Qed.

Lemma parse_nodes_fuel fuel d h :
  (length h <= fuel)%nat → parse_nodes_loop B fuel d h ≠ Raise OutOfFuel.
Proof.
  revert d h. induction fuel as [|fuel IH]; intros d [|l rest] Hlen; simpl in *;
    try done; try lia.
  destruct (startswith l node_header); [|apply IH; lia].
  unfold read_node_coordinates.
  pose proof (read_node_coordinates_shape ∅ rest) as Hshape.
  destruct (read_node_coordinates_loop B ∅ rest) as [[d1 h1]|e] eqn:E; simpl.
  - destruct (scan_shape_length _ _ _ _ _ Hshape eq_refl) as [Hl1 _]. apply IH. lia.
  - destruct Hshape as [->|[-> _]]; done.
Qed.

End Reader.

(** ** Exceptions of the clusterer and of the rewriter *)

Lemma mapM_Raise_with {A C} (P : exn → Prop) (f : A → result C) (l : list A) e :
  (∀ x e', f x = Raise e' → P e') → mapM f l = Raise e → P e.
Proof.
  intros Hf. induction l as [|x l IH]; simpl; [done|].
  destruct (f x) as [y|e'] eqn:E; simpl; [|intros [= <-]; eauto].
  destruct (mapM f l) as [k|e'']; simpl; [done|]. intros [= <-]. by apply IH.
Qed.

Lemma getitem_exn d k e : getitem d k = Raise e → e ≠ OutOfFuel.
Proof. unfold getitem. destruct (d !! k); simpl; [done|]. by intros [= <-]. Qed.

Lemma index_exn {A} (t : list A) i e : index t i = Raise e → e ≠ OutOfFuel.
Proof. unfold index. destruct (t !! i); simpl; [done|]. by intros [= <-]. Qed.

Lemma bind_Raise {A C} (m : result A) (f : A → result C) e :
  (m ≫= f) = Raise e → m = Raise e ∨ ∃ a, m = Ok a ∧ f a = Raise e.
Proof. destruct m as [a|e']; simpl; [right; eauto | intros [= ->]; by left]. Qed.

Lemma compare_nodes_exn tol n1 c1 st n2 e :
  compare_nodes tol n1 c1 st n2 = Raise e → e ≠ OutOfFuel.
Proof.
  unfold compare_nodes. intros H.
  repeat (apply bind_Raise in H as [H|(? & _ & H)];
          [first [by eapply getitem_exn | by eapply index_exn]|]).
  destruct (_ && _); [|done].
  apply bind_Raise in H as [H|(? & _ & H)]; [by eapply getitem_exn|done].
Qed.

Lemma adjust_later_exn tol n1 c1 later st e :
  adjust_later tol n1 c1 later st = Raise e → e ≠ OutOfFuel.
Proof.
  revert st. induction later as [|n2 later IH]; intros st; simpl; [done|].
  intros [H|(st' & _ & H)]%bind_Raise; [by eapply compare_nodes_exn | by eapply IH].
Qed.

Lemma adjust_group_exn tol g st e :
  adjust_group tol g st = Raise e → e ≠ OutOfFuel.
Proof.
  revert st. induction g as [|n1 later IH]; intros st; simpl; [done|].
  intros [H|(c1 & _ & H)]%bind_Raise; [by eapply getitem_exn|].
  apply bind_Raise in H as [H|(st' & _ & H)]; [by eapply adjust_later_exn | by eapply IH].
Qed.

Lemma adjust_groups_exn tol groups st e :
  adjust_groups tol groups st = Raise e → e ≠ OutOfFuel.
Proof.
  revert st. induction groups as [|g groups IH]; intros st; simpl; [done|].
  intros [H|(st' & _ & H)]%bind_Raise; [by eapply adjust_group_exn | by eapply IH].
Qed.

Lemma adjust_nodes_exn t groups tol e :
  adjust_nodes t groups tol = Raise e → e ≠ OutOfFuel.
Proof.
  unfold adjust_nodes.
  intros [H|(st & _ & H)]%bind_Raise; [by eapply adjust_groups_exn|].
  apply bind_Raise in H as [H|(k & _ & H)]; [|done].
  eapply (mapM_Raise_with (λ e, e ≠ OutOfFuel)); [|done]. intros x e'. apply getitem_exn.
Qed.

Lemma rewrite_lines_exn B adj inside lines o e :
  rewrite_lines B adj inside lines = (o, Raise e) → e ≠ OutOfFuel.
Proof.
  revert inside o. induction lines as [|l rest IH]; intros inside o; simpl.
  - destruct inside; by intros [= <- <-].
  - destruct (startswith l "*").
    + destruct (rewrite_lines B adj _ rest) as [o' res'] eqn:E.
      intros [= <- ->]. by eapply IH.
    + destruct (rewrite_line B adj inside l) as [x|e'] eqn:Ex.
      * destruct (rewrite_lines B adj inside rest) as [o' res'] eqn:E.
        intros [= <- ->]. by eapply IH.
      * intros [= <- <-]. unfold rewrite_line in Ex. destruct inside; [|done].
        apply bind_Raise in Ex as [H|(n & _ & H)].
        -- unfold node_id in H. apply bind_Raise in H as [H|(s0 & _ & H)];
             [by eapply index_exn|]. apply py_int_Raise in H. by subst.
        -- destruct (adj !! n) as [c|]; [|done]. unfold format_node in H.
           repeat (apply bind_Raise in H as [H|(? & _ & H)]; [by eapply index_exn|]).
           done.
Qed.

(** ** The driver *)

Section Driver.

Context (B : Builtins).

Lemma parse_old_inp_file_fuel lines key :
  parse_old_inp_file B lines key ≠ Raise OutOfFuel.
Proof.
  unfold parse_old_inp_file.
  pose proof (parse_groups_fuel B (length lines) key [] lines (le_n _)) as Hg.
  pose proof (parse_nodes_fuel B (length lines) ∅ lines (le_n _)) as Hn.
  destruct (parse_groups_loop B _ key [] lines) as [gs|e]; simpl; [|congruence].
  destruct (parse_nodes_loop B _ ∅ lines) as [d|e]; simpl; congruence.
Qed.

(** C8, amended. When the file has several node sections, the node table is
    the one read from the last of them: each section replaces the table of
    the one before. *)
Theorem node_table_from_last_section lines key pre hdr rest tbl groups :
  lines = pre ++ hdr :: rest →
  startswith hdr node_header = true →
  (∀ l, l ∈ rest → startswith l node_header = false) →
  parse_old_inp_file B lines key = Ok (tbl, groups) →
  ∃ h', read_node_coordinates B rest = Ok (tbl, h').
Proof.
  intros -> Hhdr Hrest. unfold parse_old_inp_file.
  intros (gs & _ & H)%bind_Ok. apply bind_Ok in H as (d & Hd & [= <- <-]).
  by eapply parse_nodes_last.
Qed.

Lemma parse_truncated lines element_types key :
  element_key element_types = Ok key →
  truncated lines →
  ∃ e, parse_old_inp_file B lines key = Raise e ∧ (e = ValueError ∨ e = EndOfInp NodeScan).
Proof.
  intros Hkey (pre & hdr & rest & -> & Hhdr & Hrest). unfold parse_old_inp_file.
  destruct (parse_groups_truncated B (length (pre ++ hdr :: rest)) key [] pre hdr rest)
    as [[gs ->]| ->]; try done.
  - intros l. by eapply element_key_star.
  - by apply header_starts_with_star.
  - by eapply element_key_not_node.
  - simpl. destruct (parse_nodes_truncated B (length (pre ++ hdr :: rest)) ∅ pre hdr rest)
      as (e & -> & He); try done. by exists e.
  - exists ValueError. split; [done|by left].
Qed.

(** C10, amended. [coord_snap] returns nothing: when it succeeds its value
    is [None], the destination holds what the rewriter wrote for the
    changed-node dictionary of the clusterer, and the number of changes is
    not part of the result. *)
Theorem coord_snap_returns_none fs fs' old_path new_path element_types tolerance v :
  coord_snap B fs old_path new_path element_types tolerance = (fs', Ok v) →
  v = PyNone ∧
  ∃ key text tbl groups adj out,
    element_key element_types = Ok key ∧
    fs !! old_path = Some text ∧
    parse_old_inp_file B (readlines text) key = Ok (tbl, groups) ∧
    adjust_nodes tbl groups tolerance = Ok adj ∧
    write_new_inp_file B
      (readlines (contents (<[new_path := EmptyString]> fs) old_path))
      (adjusted_coords_dict adj) = (out, Ok tt) ∧
    fs' = <[new_path := String.concat EmptyString out]> fs.
Proof.
  unfold coord_snap.
  destruct (element_key element_types) as [key|e]; [|done].
  destruct (fs !! old_path) as [text|] eqn:Hold; [|done].
  destruct (parse_old_inp_file B (readlines text) key) as [[tbl groups]|e] eqn:Hp;
    simpl; [|done].
  destruct (adjust_nodes tbl groups tolerance) as [adj|e] eqn:Ha; [|done].
  destruct (write_new_inp_file B _ (adjusted_coords_dict adj)) as [out [[]|e]] eqn:Hw;
    simpl; [|done].
  intros [= <- <-]. split; [done|]. by eexists key, text, tbl, groups, adj, out.
Qed.

(** No run of [coord_snap] ends on the iteration bound of the model. *)
Lemma coord_snap_fuel fs old_path new_path element_types tolerance :
  (coord_snap B fs old_path new_path element_types tolerance).2 ≠ Raise OutOfFuel.
Proof.
  unfold coord_snap.
  destruct (element_key element_types) as [key|e] eqn:Hk.
  2:{ unfold element_key in Hk. repeat case_match; by simplify_eq. }
  destruct (fs !! old_path) as [text|]; [|done].
  pose proof (parse_old_inp_file_fuel (readlines text) key) as Hp.
  destruct (parse_old_inp_file B (readlines text) key) as [[tbl groups]|e]; simpl;
    [|congruence].
  destruct (adjust_nodes tbl groups tolerance) as [adj|e] eqn:Ha; simpl.
  2:{ intros [= ->]. by apply adjust_nodes_exn in Ha. }
  rewrite write_new_inp_file_spec.
  destruct (rewrite_lines B _ false _) as [out [[]|e]] eqn:Hw; simpl; [done|].
  intros [= ->]. by apply rewrite_lines_exn in Hw.
Qed.

End Driver.

(** ** Concrete files *)


(** C8, as stated, fails: the table the parser returns is the one of the
    second (last) node section, not the one read from the first. *)
Lemma node_table_not_first_section :
  ∃ tbl groups first h',
    parse_old_inp_file Py.builtins two_sections "*Element, type=" = Ok (tbl, groups) ∧
    read_node_coordinates Py.builtins (drop 1 two_sections) = Ok (first, h') ∧
    first = {[ 1 := [1; 1; 1]%float ]} ∧
    tbl = {[ 2 := [2; 2; 2]%float ]} ∧
    tbl ≠ first.
Proof.
  eexists _, _, _, _. split; [vm_compute; reflexivity|].
  split; [vm_compute; reflexivity|].
  split; [vm_compute; reflexivity|]. split; [vm_compute; reflexivity|].
  intros H. apply (f_equal (λ m : gmap Z (list float), m !! 1)) in H.
  vm_compute in H. discriminate H.
Qed.

Lemma node_table_from_last_section_witness :
  ∃ h', read_node_coordinates Py.builtins (drop 3 two_sections)
        = Ok ({[ 2 := [2; 2; 2]%float ]}, h').
Proof.
  apply (node_table_from_last_section Py.builtins two_sections "*Element, type="
           (take 2 two_sections) ("*Node" +:+ newline) (drop 3 two_sections) _ []).
  - vm_compute; reflexivity.
  - vm_compute; reflexivity.
  - intros l Hl. vm_compute in Hl.
    apply elem_of_cons in Hl as [->|Hl]; [vm_compute; reflexivity|].
    apply elem_of_cons in Hl as [->|Hl]; [vm_compute; reflexivity|].
    by apply elem_of_nil in Hl.
  - vm_compute; reflexivity.
Defined.

(** C10, as stated, fails: the run below changes one node and succeeds,
    and what [coord_snap] returns is [None], not the count 1. *)
Lemma coord_snap_count_not_returned :
  ∃ tbl groups adj fs',
    parse_old_inp_file Py.builtins (readlines scenario_text) "*Element, type=COH3D"
      = Ok (tbl, groups) ∧
    adjust_nodes tbl groups 0.001%float = Ok adj ∧
    size (adjusted_coords_dict adj) = 1%nat ∧
    coord_snap Py.builtins scenario_fs "a.inp" "b.inp" "cohesives" 0.001%float
      = (fs', Ok PyNone) ∧
    fs' !! "b.inp" = Some scenario_rewritten ∧
    (coord_snap Py.builtins scenario_fs "a.inp" "b.inp" "cohesives" 0.001%float).2
      ≠ Ok (PyInt 1).
Proof.
  eexists _, _, _, _. split; [vm_compute; reflexivity|].
  split; [vm_compute; reflexivity|]. split; [vm_compute; reflexivity|].
  split; [vm_compute; reflexivity|]. split; [vm_compute; reflexivity|].
  vm_compute. discriminate.
Qed.

Lemma coord_snap_returns_none_witness :
  ∃ fs', coord_snap Py.builtins scenario_fs "a.inp" "b.inp" "cohesives" 0.001%float
         = (fs', Ok PyNone).
Proof.
  eexists.
  assert (H : coord_snap Py.builtins scenario_fs "a.inp" "b.inp" "cohesives" 0.001%float
              = (<["b.inp" := scenario_rewritten]> scenario_fs, Ok PyNone))
    by (vm_compute; reflexivity).
  destruct (coord_snap_returns_none Py.builtins _ _ _ _ _ _ _ H) as [_ _].
  exact H.
Defined.


(** * Further properties *)

(** ** The clusterer: what it needs, what it keeps *)

Lemma all_comparable_has3 tol sched t n :
  all_comparable tol sched t → n ∈ sched.*1 ∨ n ∈ sched.*2 → has3 t n.
Proof.
  revert t. induction sched as [|[a b] sched IH]; intros t; simpl.
  - intros _ [[]%elem_of_nil|[]%elem_of_nil].
  - intros [(ca & cb & Ha & Hb & Hla & Hlb) Hrest] Hn; simpl in *.
    destruct (decide (n = a)) as [->|Hna]; [by exists ca|].
    destruct (decide (n = b)) as [->|Hnb]; [by exists cb|].
    destruct (IH (snap tol t (a, b)) Hrest) as (c & Hc & Hl).
    { destruct Hn as [Hn|Hn]; apply elem_of_cons in Hn as [?|?]; auto; done. }
    exists c. split; [|done]. by rewrite snap_lookup_ne in Hc.
Qed.

Lemma pairs_of_covers g n :
  (2 <= length g)%nat → n ∈ g → n ∈ (pairs_of g).*1 ∨ n ∈ (pairs_of g).*2.
Proof.
  destruct g as [|a [|b later]]; intros Hlen Hn; simpl in Hlen; try lia.
  apply elem_of_cons in Hn as [->|Hn].
  - left. apply (list_elem_of_fmap_2 fst _ (a, b)). by left.
  - right. apply (list_elem_of_fmap_2 snd _ (a, n)).
    change ((a, n) ∈ ((pair a <$> (b :: later)) ++ pairs_of (b :: later))).
    apply elem_of_app. left. by apply list_elem_of_fmap_2.
Qed.

Lemma comparisons_covers groups g n :
  g ∈ groups → n ∈ (pairs_of g).*1 ∨ n ∈ (pairs_of g).*2 →
  n ∈ (comparisons groups).*1 ∨ n ∈ (comparisons groups).*2.
Proof.
  unfold comparisons. induction groups as [|g' groups IH]; [by intros ?%elem_of_nil|].
  simpl. rewrite !fmap_app, !elem_of_app.
  intros [->|Hg]%elem_of_cons Hn; [tauto|]. destruct (IH Hg Hn); tauto.
Qed.

Lemma adjust_group_present tol g st st' n :
  adjust_group tol g st = Ok st' → n ∈ g → is_Some (dict st !! n).
Proof.
  revert st. induction g as [|n1 later IH]; intros st; simpl; [by intros _ ?%elem_of_nil|].
  intros H Hn. apply bind_Ok in H as (c1 & H1%getitem_Ok & H).
  apply bind_Ok in H as (st1 & Hl & H).
  apply elem_of_cons in Hn as [->|Hn]; [by eexists|].
  apply adjust_later_Ok in Hl as [(_ & Hd & _) _]; [|done].
  specialize (IH _ H Hn). rewrite Hd in IH. by apply run_is_Some in IH.
Qed.

Lemma adjust_groups_present tol groups st st' g n :
  adjust_groups tol groups st = Ok st' → g ∈ groups → n ∈ g → is_Some (dict st !! n).
Proof.
  revert st. induction groups as [|g' groups IH]; intros st; simpl;
    [by intros _ ?%elem_of_nil|].
  intros H Hg Hn. apply bind_Ok in H as (st1 & Hg' & H).
  apply elem_of_cons in Hg as [->|Hg]; [by eapply adjust_group_present|].
  apply adjust_group_Ok in Hg' as (_ & Hd & _).
  specialize (IH _ H Hg Hn). rewrite Hd in IH. by apply run_is_Some in IH.
Qed.

(** X1. A call of [adjust_nodes] that returns has found every node of
    every group in the table (an absent node raises), and every node of a
    group of two or more nodes had at least three coordinates as read. *)
Theorem adjust_nodes_needs_nodes t groups tol r g n :
  adjust_nodes t groups tol = Ok r →
  g ∈ groups → n ∈ g →
  is_Some (t !! n) ∧ ((2 <= length g)%nat → has3 t n).
Proof.
  intros Hr Hg Hn. split.
  - apply adjust_nodes_groups in Hr as (st & Hst & _).
    by apply (adjust_groups_present _ _ _ _ _ _ Hst Hg Hn).
  - intros Hlen. apply adjust_nodes_Ok in Hr as (Hc & _).
    eapply all_comparable_has3; [done|].
    eapply comparisons_covers; [done|]. by apply pairs_of_covers.
Qed.

Lemma adjust_nodes_needs_nodes_witness :
  is_Some (scenario_table !! 2) ∧ has3 scenario_table 2.
Proof.
  destruct (adjust_nodes_needs_nodes scenario_table [[1; 2; 3]] 0.001%float
              {| adjusted_coords_dict := {[ 2 := [0; 0; 0]%float ]};
                 node_coords_after := <[2 := [0; 0; 0]%float]> scenario_table;
                 substitutions_made := 1 |} [1; 2; 3] 2) as [H1 H2].
  - vm_compute; reflexivity.
  - by left.
  - right. by left.
  - split; [exact H1|]. apply H2. simpl. lia.
Defined.

(** X2. When every node of every group is in the table with at least three
    coordinates, [adjust_nodes] returns: no [KeyError], no [IndexError]. *)
Theorem adjust_nodes_returns t groups tol :
  (∀ g n, g ∈ groups → n ∈ g → ∃ c, t !! n = Some c ∧ (3 <= length c)%nat) →
  ∃ r, adjust_nodes t groups tol = Ok r.
Proof. apply adjust_nodes_total. Qed.

Lemma adjust_nodes_returns_witness :
  ∃ r, adjust_nodes twin_table [[1; 2]; [2]] 0.5%float = Ok r.
Proof.
  apply adjust_nodes_returns. intros g n Hg Hn.
  assert (Hn' : n = 1 ∨ n = 2).
  { apply elem_of_cons in Hg as [->|Hg].
    - apply elem_of_cons in Hn as [->|Hn]; [by left|].
      apply elem_of_cons in Hn as [->|Hn]; [by right|]. by apply elem_of_nil in Hn.
    - apply elem_of_cons in Hg as [->|Hg]; [|by apply elem_of_nil in Hg].
      apply elem_of_cons in Hn as [->|Hn]; [by right|]. by apply elem_of_nil in Hn. }
  destruct Hn' as [->| ->]; exists [0; 0; 0]%float; split;
    solve [vm_compute; reflexivity | simpl; lia].
Defined.

(** *** The exceptions of the clusterer *)

Lemma compare_nodes_raises tol n1 c1 st n2 e :
  compare_nodes tol n1 c1 st n2 = Raise e →
  dict st !! n1 = Some c1 →
  e = IndexError ∨ (e = KeyError n2 ∧ dict st !! n2 = None).
Proof.
  unfold compare_nodes. intros H H1.
  apply bind_Raise in H as [H|(c2 & _ & H)].
  { right. unfold getitem in H. destruct (dict st !! n2); simpl in H; by simplify_eq. }
  assert (Hidx : ∀ (c : list float) i e', index c i = Raise e' → e' = IndexError).
  { intros c i e'. unfold index. destruct (c !! i); simpl; congruence. }
  repeat (apply bind_Raise in H as [H|(? & _ & H)]; [left; by eapply Hidx|]).
  destruct (_ && _); [|done].
  unfold getitem in H. by rewrite H1 in H.
Qed.

Lemma adjust_later_raises tol n1 c1 later st e :
  adjust_later tol n1 c1 later st = Raise e →
  dict st !! n1 = Some c1 →
  e = IndexError ∨ ∃ k, e = KeyError k ∧ dict st !! k = None ∧ k ∈ later.
Proof.
  revert st. induction later as [|n2 later IH]; intros st; simpl; [done|].
  intros [H|(st1 & Hcmp & H)]%bind_Raise H1.
  - apply compare_nodes_raises in H as [->|[-> Hn]]; [by left| |done].
    right. exists n2. split; [done|]. split; [done|by left].
  - apply compare_nodes_Ok in Hcmp as (_ & Hd & _ & _ & H1'); [|done].
    destruct (IH _ H H1') as [->|(k & -> & Hk & Hin)]; [by left|].
    right. exists k. split; [done|]. split; [|by right].
    rewrite Hd, eq_None_not_Some, snap_is_Some in Hk. by apply eq_None_not_Some.
Qed.

Lemma adjust_group_raises tol g st e :
  adjust_group tol g st = Raise e →
  e = IndexError ∨ ∃ k, e = KeyError k ∧ dict st !! k = None ∧ k ∈ g.
Proof.
  revert st. induction g as [|n1 later IH]; intros st; simpl; [done|].
  intros [H|(c1 & H1%getitem_Ok & H)]%bind_Raise.
  { right. exists n1. unfold getitem in H.
    destruct (dict st !! n1) eqn:E; simpl in H; simplify_eq.
    split; [done|]. split; [done|by left]. }
  apply bind_Raise in H as [H|(st1 & Hl & H)].
  - apply adjust_later_raises in H as [->|(k & -> & Hk & Hin)]; [by left| |done].
    right. exists k. split; [done|]. split; [done|by right].
  - apply adjust_later_Ok in Hl as [(_ & Hd & _) _]; [|done].
    destruct (IH _ H) as [->|(k & -> & Hk & Hin)]; [by left|].
    right. exists k. split; [done|]. split; [|by right].
    rewrite Hd, eq_None_not_Some, run_is_Some in Hk. by apply eq_None_not_Some.
Qed.

Lemma adjust_groups_raises tol groups st e :
  adjust_groups tol groups st = Raise e →
  e = IndexError ∨ ∃ k, e = KeyError k ∧ dict st !! k = None ∧ ∃ g, g ∈ groups ∧ k ∈ g.
Proof.
  revert st. induction groups as [|g groups IH]; intros st; simpl; [done|].
  intros [H|(st1 & Hg & H)]%bind_Raise.
  - apply adjust_group_raises in H as [->|(k & -> & Hk & Hin)]; [by left|].
    right. exists k. split; [done|]. split; [done|]. exists g. split; [by left|done].
  - apply adjust_group_Ok in Hg as (_ & Hd & _).
    destruct (IH _ H) as [->|(k & -> & Hk & g' & Hg' & Hin)]; [by left|].
    right. exists k. split; [done|]. split.
    + rewrite Hd, eq_None_not_Some, run_is_Some in Hk. by apply eq_None_not_Some.
    + exists g'. split; [by right|done].
Qed.

(** X3. The only exceptions of [adjust_nodes]: [KeyError k] for a node [k]
    of some group that is absent from the table, and [IndexError] for a
    tuple with fewer than three coordinates. *)
Theorem adjust_nodes_raises t groups tol e :
  adjust_nodes t groups tol = Raise e →
  e = IndexError ∨ ∃ k, e = KeyError k ∧ t !! k = None ∧ ∃ g, g ∈ groups ∧ k ∈ g.
Proof.
  unfold adjust_nodes. intros [H|(st & Hst & H)]%bind_Raise.
  - by apply adjust_groups_raises in H.
  - exfalso. apply bind_Raise in H as [H|(k & _ & H)]; [|done].
    apply adjust_groups_Ok in Hst as (_ & Hd & Ha & _); simpl in *.
    destruct (mapM_total (getitem (dict st))
                (elements (list_to_set (adjusted_nodes st) : gset Z))) as [k Hk];
      [|congruence].
    intros n Hn%elem_of_elements%elem_of_list_to_set.
    rewrite Ha in Hn. apply targets_is_Some in Hn as [c Hc].
    exists c. apply getitem_Ok. by rewrite Hd.
Qed.

Lemma adjust_nodes_raises_witness :
  adjust_nodes twin_table [[1; 7]] 0.001%float = Raise (KeyError 7) ∧
  twin_table !! 7 = None.
Proof.
  assert (H : adjust_nodes twin_table [[1; 7]] 0.001%float = Raise (KeyError 7))
    by (vm_compute; reflexivity).
  split; [exact H|].
  destruct (adjust_nodes_raises _ _ _ _ H) as [Hi|(k & Hk & Hnone & _)];
    [discriminate Hi|].
  injection Hk as <-. exact Hnone.
Defined.

(** *** What a run keeps *)

Lemma run_values tol sched t n c :
  run tol sched t !! n = Some c → ∃ m, t !! m = Some c.
Proof.
  revert t. induction sched as [|p sched IH]; intros t; unfold run in *; simpl; [eauto|].
  intros (m & Hm)%IH. unfold snap in Hm.
  destruct (t !! p.1) as [c1|] eqn:E1; [|by exists m].
  destruct (t !! p.2) as [c2|] eqn:E2; [|by exists m].
  destruct (coincident c1 c2 tol); [|by exists m].
  destruct (decide (m = p.2)) as [->|Hne].
  - rewrite lookup_insert_eq in Hm. simplify_eq. by exists p.1.
  - rewrite lookup_insert_ne in Hm by done. by exists m.
Qed.

(** X4. [adjust_nodes] neither adds nor removes a node, and it invents no
    coordinate: every tuple of the table it leaves, and every tuple it
    returns, is the as-read tuple of some node, copied whole. *)
Theorem adjust_nodes_keeps t groups tol r :
  adjust_nodes t groups tol = Ok r →
  dom (node_coords_after r) = dom t ∧
  (∀ n c, node_coords_after r !! n = Some c → ∃ m, t !! m = Some c) ∧
  (∀ n c, adjusted_coords_dict r !! n = Some c → ∃ m, t !! m = Some c).
Proof.
  intros (_ & Hd & _ & Hadj)%adjust_nodes_Ok. rewrite Hd. split; [|split].
  - apply set_eq. intros n. by rewrite !elem_of_dom, run_is_Some.
  - intros n c. apply run_values.
  - intros n c [_ Hc]%Hadj. by eapply run_values.
Qed.

Lemma adjust_nodes_keeps_witness :
  ∃ r, adjust_nodes scenario_table [[1; 2; 3]] 0.001%float = Ok r ∧
       dom (node_coords_after r) = dom scenario_table.
Proof.
  eexists. split; [vm_compute; reflexivity|].
  eapply (adjust_nodes_keeps scenario_table [[1; 2; 3]] 0.001%float).
  vm_compute; reflexivity.
Defined.

(** X5. A node that is never the later node of a comparison keeps its
    coordinate and is not reported; so does, in particular, a node that is
    in no group. *)
Theorem adjust_nodes_frame t groups tol r n :
  adjust_nodes t groups tol = Ok r →
  n ∉ (comparisons groups).*2 ∨ (∀ g, g ∈ groups → n ∉ g) →
  node_coords_after r !! n = t !! n ∧ adjusted_coords_dict r !! n = None.
Proof.
  intros Hr Hn.
  assert (Hn' : n ∉ (comparisons groups).*2).
  { destruct Hn as [?|Hn]; [done|]. intros (p & -> & Hp)%list_elem_of_fmap.
    destruct p as [a b]. apply comparisons_elem in Hp as (g & Hg & _ & Hb).
    by apply (Hn g). }
  pose proof Hr as (_ & Hd & _ & Hadj)%adjust_nodes_Ok. split.
  - rewrite Hd. by apply run_lookup_frame.
  - destruct (adjusted_coords_dict r !! n) as [c|] eqn:E; [|done].
    apply Hadj in E as [(pre & a & post & Hs & _)%targets_schedule _].
    destruct Hn'. rewrite Hs, fmap_app, fmap_cons. apply elem_of_app. right. by left.
Qed.

Lemma adjust_nodes_frame_witness :
  ∃ r, adjust_nodes scenario_table [[1; 2; 3]] 0.001%float = Ok r ∧
       node_coords_after r !! 1 = scenario_table !! 1 ∧
       adjusted_coords_dict r !! 1 = None.
Proof.
  eexists. split; [vm_compute; reflexivity|].
  eapply (adjust_nodes_frame scenario_table [[1; 2; 3]] 0.001%float).
  - vm_compute; reflexivity.
  - left. vm_compute. intros H.
    repeat (apply elem_of_cons in H as [H|H]; [discriminate H|]).
    by apply elem_of_nil in H.
Defined.

(** *** Counts *)

Lemma targets_length tol sched t : (length (targets tol sched t) <= length sched)%nat.
Proof.
  revert t. induction sched as [|p sched IH]; intros t; simpl; [done|].
  rewrite length_app. specialize (IH (snap tol t p)).
  destruct (snaps tol t p); simpl; lia.
Qed.

Lemma size_list_to_set_le (l : list Z) : (size (list_to_set l : gset Z) <= length l)%nat.
Proof.
  induction l as [|x l IH]; [rewrite list_to_set_nil, size_empty; simpl; lia|].
  rewrite list_to_set_cons. simpl length.
  destruct (decide (x ∈ (list_to_set l : gset Z))) as [Hx|Hx].
  - assert (E : ({[x]} ∪ list_to_set l : gset Z) = list_to_set l)
      by (apply subseteq_union_1_L; by apply singleton_subseteq_l).
    rewrite E. lia.
  - rewrite size_union by set_solver. rewrite size_singleton. lia.
Qed.

(** X6. The number of nodes [adjust_nodes] returns is at most the number
    of substitutions it logs, which is at most the number of comparisons:
    a node overwritten several times is returned once. *)
Theorem adjust_nodes_counts t groups tol r :
  adjust_nodes t groups tol = Ok r →
  (Z.of_nat (size (adjusted_coords_dict r)) <= substitutions_made r)%Z ∧
  (substitutions_made r <= Z.of_nat (length (comparisons groups)))%Z.
Proof.
  intros (_ & Hd & Hs & Hadj)%adjust_nodes_Ok. rewrite Hs. split.
  - apply inj_le. rewrite <- size_dom.
    etrans; [|apply size_list_to_set_le].
    apply subseteq_size. intros n [c Hc]%elem_of_dom.
    apply elem_of_list_to_set. by apply Hadj in Hc as [? _].
  - apply inj_le, targets_length.
Qed.

Lemma adjust_nodes_counts_witness :
  ∃ r, adjust_nodes drift_table [[1; 2]; [3; 1]; [1; 2]] 0.001%float = Ok r ∧
       size (adjusted_coords_dict r) = 2%nat ∧ substitutions_made r = 3 ∧
       (Z.of_nat (size (adjusted_coords_dict r)) <= substitutions_made r)%Z.
Proof.
  eexists. split; [vm_compute; reflexivity|].
  split; [vm_compute; reflexivity|]. split; [vm_compute; reflexivity|].
  eapply (adjust_nodes_counts drift_table [[1; 2]; [3; 1]; [1; 2]] 0.001%float).
  vm_compute; reflexivity.
Defined.

(** *** Runs that change nothing *)

Lemma run_idle tol sched t :
  (∀ p, p ∈ sched → snaps tol t p = false) →
  run tol sched t = t ∧ targets tol sched t = [].
Proof.
  induction sched as [|p sched IH]; intros H; unfold run in *; simpl; [done|].
  rewrite (H p) by by left. rewrite snap_idle by (apply H; by left). simpl.
  apply IH. intros q Hq. apply H. by right.
Qed.

Lemma adjust_nodes_idle t groups tol r :
  (∀ p, p ∈ comparisons groups → snaps tol t p = false) →
  adjust_nodes t groups tol = Ok r →
  node_coords_after r = t ∧ adjusted_coords_dict r = ∅ ∧ substitutions_made r = 0.
Proof.
  intros Hno (_ & Hd & Hs & Hadj)%adjust_nodes_Ok.
  destruct (run_idle tol _ t Hno) as [Hrun Htg]. rewrite Hrun, Htg in *.
  split; [done|]. split; [|done].
  apply map_eq. intros n. rewrite lookup_empty.
  destruct (adjusted_coords_dict r !! n) as [c|] eqn:E; [|done].
  apply Hadj in E as [[]%elem_of_nil _].
Qed.

(** X7. When no compared pair passes the coincidence test on the table as
    read, [adjust_nodes] leaves the table as it is, returns an empty
    dictionary and logs zero substitutions. *)
Theorem adjust_nodes_nothing_close t groups tol r :
  (∀ p, p ∈ comparisons groups → snaps tol t p = false) →
  adjust_nodes t groups tol = Ok r →
  node_coords_after r = t ∧ adjusted_coords_dict r = ∅ ∧ substitutions_made r = 0.
Proof. apply adjust_nodes_idle. Qed.

Lemma adjust_nodes_nothing_close_witness :
  ∃ r, adjust_nodes scenario_table [[1; 3]] 0.001%float = Ok r ∧
       node_coords_after r = scenario_table ∧ adjusted_coords_dict r = ∅.
Proof.
  eexists. split; [vm_compute; reflexivity|].
  destruct (adjust_nodes_nothing_close scenario_table [[1; 3]] 0.001%float
              {| adjusted_coords_dict := ∅; node_coords_after := scenario_table;
                 substitutions_made := 0 |}) as (H1 & H2 & _).
  - intros p Hp. apply list_elem_of_singleton in Hp as ->. vm_compute; reflexivity.
  - vm_compute; reflexivity.
  - split; [exact H1 | exact H2].
Defined.

(** *** A tolerance that is not positive *)

Lemma close_not_positive a b tol :
  PrimFloat.ltb 0 tol = false → close a b tol = false.
Proof.
  unfold close. rewrite !ltb_spec, abs_spec.
  change (Prim2SF 0) with (S754_zero false).
  destruct (Prim2SF (PrimFloat.sub a b)) as [s| s| |s m e];
    destruct (Prim2SF tol) as [s'| s'| |s' m' e']; simpl; try done;
    destruct s'; done.
Qed.

(** X8. [adjust_nodes] does not check the tolerance: with a tolerance that
    is zero, negative or not a number (anything for which [0 < tolerance]
    is false) no pair ever passes the test, so the table is left as it is
    and nothing is returned, whatever the coordinates. *)
Theorem adjust_nodes_tolerance_not_positive t groups tol r :
  PrimFloat.ltb 0 tol = false →
  adjust_nodes t groups tol = Ok r →
  node_coords_after r = t ∧ adjusted_coords_dict r = ∅ ∧ substitutions_made r = 0.
Proof.
  intros Htol. apply adjust_nodes_idle. intros p _. unfold snaps.
  destruct (t !! p.1) as [c1|]; [|done]. destruct (t !! p.2) as [c2|]; [|done].
  destruct c1 as [|x1 [|y1 [|z1 r1]]]; try done.
  destruct c2 as [|x2 [|y2 [|z2 r2]]]; try done.
  simpl. by rewrite (close_not_positive x1 x2 tol Htol).
Qed.

Lemma adjust_nodes_tolerance_not_positive_witness :
  ∃ r, adjust_nodes twin_table [[1; 2]] 0%float = Ok r ∧
       node_coords_after r = twin_table ∧ adjusted_coords_dict r = ∅.
Proof.
  eexists. split; [vm_compute; reflexivity|].
  destruct (adjust_nodes_tolerance_not_positive twin_table [[1; 2]] 0%float
              {| adjusted_coords_dict := ∅; node_coords_after := twin_table;
                 substitutions_made := 0 |}) as (H1 & H2 & _).
  - vm_compute; reflexivity.
  - vm_compute; reflexivity.
  - split; [exact H1 | exact H2].
Defined.

(** ** The readers, record by record *)

Section Records_properties.

Context (B : Builtins).

Lemma node_record_Ok line n cs :
  node_record B line = Ok (n, cs) ↔
  ∃ s0, index (split_comma (rstrip line)) 0 = Ok s0 ∧ py_int B s0 = Ok n ∧
        mapM (py_float B) (drop 1 (split_comma (rstrip line))) = Ok cs.
Proof.
  unfold node_record. split.
  - intros (s0 & H0 & H)%bind_Ok. apply bind_Ok in H as (n' & Hn & H).
    apply bind_Ok in H as (cs' & Hcs & [= <- <-]). by exists s0.
  - intros (s0 & H0 & Hn & Hc). rewrite H0; simpl. rewrite Hn; simpl. by rewrite Hc.
Qed.

Lemma read_loop_records d recs rs star rest :
  Forall (λ l, startswith l "*" = false) recs →
  startswith star "*" = true →
  mapM (node_record B) recs = Ok rs →
  read_node_coordinates_loop B d (recs ++ star :: rest)
    = Ok (foldl insert_record d rs, star :: rest).
Proof.
  intros Hrecs Hstar. revert d rs.
  induction Hrecs as [|l recs Hl _ IH]; intros d rs Hrs; simpl in *.
  - rewrite Hstar. by injection Hrs as <-.
  - rewrite Hl. apply bind_Ok in Hrs as ([n cs] & Hr & Hrs).
    apply bind_Ok in Hrs as (rs' & Hrs' & [= <-]).
    apply node_record_Ok in Hr as (s0 & H0 & Hn & Hc).
    rewrite H0; simpl. rewrite Hn; simpl. rewrite Hc; simpl. by apply IH.
Qed.

Lemma foldl_insert_record_last (d : gmap Z (list float)) rs1 n c rs2 :
  n ∉ rs2.*1 → foldl insert_record d (rs1 ++ (n, c) :: rs2) !! n = Some c.
Proof.
  intros Hn. rewrite foldl_app. simpl.
  generalize (foldl insert_record d rs1). intros d'.
  assert (H : insert_record d' (n, c) !! n = Some c) by apply lookup_insert_eq.
  revert H. generalize (insert_record d' (n, c)). clear d'.
  induction rs2 as [|[m cm] rs2 IH]; intros d' H; simpl; [done|].
  apply not_elem_of_cons in Hn as [Hm Hn]. apply IH; [done|].
  unfold insert_record; simpl. by rewrite lookup_insert_ne.
Qed.

Lemma foldl_insert_record_absent (d : gmap Z (list float)) rs n :
  n ∉ rs.*1 → foldl insert_record d rs !! n = d !! n.
Proof.
  revert d. induction rs as [|[m cm] rs IH]; intros d Hn; simpl; [done|].
  apply not_elem_of_cons in Hn as [Hm Hn]. rewrite IH by done.
  unfold insert_record; simpl. by rewrite lookup_insert_ne.
Qed.

(** X9. On a section of record lines that all convert, followed by a line
    that starts with ['*'], [read_node_coordinates] returns with the cursor
    back in front of that line, and the table holds, for every node
    number, the coordinates of the last record that carries it (all the
    values of the record, also those after the third); a number that no
    record carries is not in the table. *)
Theorem read_node_coordinates_records recs rs star rest :
  Forall (λ l, startswith l "*" = false) recs →
  startswith star "*" = true →
  mapM (node_record B) recs = Ok rs →
  ∃ tbl, read_node_coordinates B (recs ++ star :: rest) = Ok (tbl, star :: rest) ∧
         tbl = foldl insert_record ∅ rs ∧
         (∀ rs1 n c rs2, rs = rs1 ++ (n, c) :: rs2 → n ∉ rs2.*1 → tbl !! n = Some c) ∧
         (∀ n, n ∉ rs.*1 → tbl !! n = None).
Proof.
  intros Hrecs Hstar Hrs. eexists. split; [by apply read_loop_records|].
  split; [done|]. split.
  - intros rs1 n c rs2 -> Hn. by apply foldl_insert_record_last.
  - intros n Hn. by rewrite foldl_insert_record_absent.
Qed.

Lemma identify_loop_records gs recs gs' star rest :
  Forall (λ l, startswith l "*" = false) recs →
  startswith star "*" = true →
  mapM (element_record B) recs = Ok gs' →
  identify_relevant_nodes_loop B gs (recs ++ star :: rest) = Ok (gs ++ gs', star :: rest).
Proof.
  intros Hrecs Hstar. revert gs gs'.
  induction Hrecs as [|l recs Hl _ IH]; intros gs gs' Hgs; simpl in *.
  - rewrite Hstar. injection Hgs as <-. by rewrite app_nil_r.
  - rewrite Hl. apply bind_Ok in Hgs as (g & Hg & Hgs).
    apply bind_Ok in Hgs as (gs2 & Hgs2 & [= <-]).
    unfold element_record in Hg. rewrite Hg. simpl.
    rewrite (IH _ _ Hgs2). by rewrite <- app_assoc.
Qed.

(** X10. On a section of record lines that all convert, followed by a line
    that starts with ['*'], [identify_relevant_nodes] returns one group per
    record line, in the order of the lines, with the cursor back in front
    of the ['*'] line. *)
Theorem identify_relevant_nodes_records recs groups star rest :
  Forall (λ l, startswith l "*" = false) recs →
  startswith star "*" = true →
  mapM (element_record B) recs = Ok groups →
  identify_relevant_nodes B (recs ++ star :: rest) = Ok (groups, star :: rest) ∧
  length groups = length recs.
Proof.
  intros Hrecs Hstar Hgs. split.
  - unfold identify_relevant_nodes. by rewrite (identify_loop_records [] _ _ _ _ Hrecs Hstar Hgs).
  - apply mapM_Ok in Hgs. symmetry. by eapply Forall2_length.
Qed.

End Records_properties.

(** ** The fields of an element record *)

Lemma split_comma_app eid s :
  has_comma eid = false → split_comma (eid +:+ "," +:+ s) = eid :: split_comma s.
Proof.
  induction eid as [|c eid IH]; simpl; [done|].
  intros [Hc Heid]%orb_false_iff. rewrite Hc. by rewrite (IH Heid).
Qed.

Lemma split_comma_none s : has_comma s = false → split_comma s = [s].
Proof.
  induction s as [|c s IH]; simpl; [done|].
  intros [Hc Hs]%orb_false_iff. rewrite Hc. by rewrite (IH Hs).
Qed.

Lemma rstrip_app_comma p s : rstrip (p +:+ "," +:+ s) = p +:+ "," +:+ rstrip s.
Proof.
  induction p as [|c p IH].
  - change (rstrip ("" +:+ "," +:+ s))
      with (match rstrip s with
            | EmptyString => if is_space "," then EmptyString else String "," EmptyString
            | r' => String "," r'
            end).
    by destruct (rstrip s).
  - change (rstrip (String c p +:+ "," +:+ s))
      with (match rstrip (p +:+ "," +:+ s) with
            | EmptyString => if is_space c then EmptyString else String c EmptyString
            | r' => String c r'
            end).
    rewrite IH. by destruct p.
Qed.

Lemma has_comma_rstrip s : has_comma s = false → has_comma (rstrip s) = false.
Proof.
  induction s as [|c s IH]; simpl; [done|].
  intros [Hc Hs]%orb_false_iff. specialize (IH Hs).
  destruct (rstrip s) eqn:E; simpl in *.
  - destruct (is_space c); simpl; [done|]. by rewrite Hc.
  - by rewrite Hc, IH.
Qed.

Section Element_fields.

Context (B : Builtins).

(** X11. The first field of an element record, the element's own number,
    is dropped without being converted: whatever stands before the first
    comma, the group is made of the fields after it. A record without a
    comma gives an empty group. *)
Theorem element_id_not_converted line star rest :
  startswith line "*" = false →
  startswith star "*" = true →
  (∀ eid s g, line = eid +:+ "," +:+ s → has_comma eid = false →
     mapM (py_int B) (split_comma (rstrip s)) = Ok g →
     identify_relevant_nodes B (line :: star :: rest) = Ok ([g], star :: rest)) ∧
  (has_comma line = false →
     identify_relevant_nodes B (line :: star :: rest) = Ok ([[]], star :: rest)).
Proof.
  intros Hline Hstar. unfold identify_relevant_nodes. split.
  - intros eid s g -> Heid Hg. simpl. rewrite Hline, Hstar.
    rewrite rstrip_app_comma, split_comma_app by done. simpl.
    rewrite drop_0, Hg. done.
  - intros Hno. simpl. rewrite Hline, Hstar.
    rewrite split_comma_none by by apply has_comma_rstrip. done.
Qed.

(** *** A truncated element section *)

Lemma parse_groups_cut fuel key gs pre hdr rest :
  (length (pre ++ hdr :: rest) <= fuel)%nat →
  (∀ l, startswith l key = true → startswith l "*" = true) →
  startswith hdr key = true →
  Forall (λ l, startswith l "*" = false) rest →
  ∃ e, parse_groups_loop B fuel key gs (pre ++ hdr :: rest) = Raise e ∧
       (e = ValueError ∨ e = EndOfInp ElementScan).
Proof.
  intros Hlen Hkey Hhdr Hrest. revert gs pre Hlen.
  induction fuel as [|fuel IH]; intros gs pre Hlen;
    [destruct pre; simpl in Hlen; lia|].
  destruct pre as [|l pre]; simpl in *.
  - rewrite Hhdr. unfold identify_relevant_nodes.
    pose proof (identify_relevant_nodes_shape B [] rest) as Hshape.
    destruct (identify_relevant_nodes_loop B [] rest) as [[g1 h1]|e]; simpl in *.
    + destruct Hshape as (recs & -> & _ & l & r & -> & Hl).
      apply Forall_app in Hrest as [_ Hrest]. apply Forall_cons in Hrest as [? _].
      congruence.
    + exists e. split; [done|]. destruct Hshape as [?|[? _]]; auto.
  - destruct (startswith l key) eqn:El; [|apply IH; lia].
    unfold identify_relevant_nodes.
    pose proof (identify_relevant_nodes_shape B [] (pre ++ hdr :: rest)) as Hshape.
    apply scan_shape_before_star in Hshape; [|by apply Hkey].
    destruct (identify_relevant_nodes_loop B [] (pre ++ hdr :: rest)) as [[g1 h1]|e]; simpl.
    + destruct Hshape as (pre' & -> & Hpre'). apply IH.
      rewrite length_app in *. simpl in *. lia.
    + exists e. split; [done|by left].
Qed.

(** X12. An element section of the selected kind that is cut by the end of
    the file makes [coord_snap] raise in the first scan, before any node is
    read and before the destination is opened: the file system is left as
    it was. The exception is the end-of-file exception of the element scan,
    or [ValueError] when a field met before did not convert. *)
Theorem truncated_element_section fs old_path new_path element_types key tolerance text :
  element_key element_types = Ok key →
  fs !! old_path = Some text →
  truncated_elements key (readlines text) →
  ∃ e, coord_snap B fs old_path new_path element_types tolerance = (fs, Raise e) ∧
       (e = ValueError ∨ e = EndOfInp ElementScan).
Proof.
  intros Hkey Hold (pre & hdr & rest & Hlines & Hhdr & Hrest).
  destruct (parse_groups_cut (length (readlines text)) key [] pre hdr rest)
    as (e & He & Hcases); try done.
  - by rewrite Hlines.
  - intros l. by eapply element_key_star.
  - exists e. split; [|done]. unfold coord_snap, parse_old_inp_file.
    rewrite Hkey, Hold. rewrite Hlines at 2. by rewrite He.
Qed.

End Element_fields.

(** ** The element scan, section by section *)

Lemma mapM_app_Ok {A C} (f : A → result C) l1 l2 k1 k2 :
  mapM f l1 = Ok k1 → mapM f l2 = Ok k2 → mapM f (l1 ++ l2) = Ok (k1 ++ k2).
Proof. rewrite !mapM_Ok. apply Forall2_app. Qed.

Lemma element_records_section key recs h' inside :
  Forall (λ l, startswith l "*" = false) recs →
  (∃ l r, h' = l :: r ∧ startswith l "*" = true) →
  element_records key true (recs ++ h') = recs ++ element_records key inside h'.
Proof.
  intros Hrecs (l & r & -> & Hl).
  induction Hrecs as [|x recs Hx _ IH]; simpl; [by rewrite Hl|].
  by rewrite Hx, IH.
Qed.

Section Element_scan.

Context (B : Builtins).

Lemma identify_loop_Ok gs h gs' h' :
  identify_relevant_nodes_loop B gs h = Ok (gs', h') →
  ∃ recs gs2, h = recs ++ h' ∧
              Forall (λ l, startswith l "*" = false) recs ∧
              (∃ l r, h' = l :: r ∧ startswith l "*" = true) ∧
              mapM (element_record B) recs = Ok gs2 ∧ gs' = gs ++ gs2.
Proof.
  revert gs. induction h as [|l rest IH]; intros gs; simpl; [done|].
  destruct (startswith l "*") eqn:El.
  - intros [= <- <-]. exists [], []. rewrite app_nil_r.
    repeat split; try done. by exists l, rest.
  - intros (g & Hg & H)%bind_Ok.
    destruct (IH _ H) as (recs & gs2 & -> & Hrecs & Hh' & Hm & ->).
    exists (l :: recs), (g :: gs2). split; [done|]. split; [by constructor|].
    split; [done|]. split; [|by rewrite <- app_assoc].
    apply mapM_Ok. constructor; [exact Hg | by apply mapM_Ok].
Qed.

Lemma parse_groups_records fuel key gs h gs' :
  (length h <= fuel)%nat →
  (∀ l, startswith l key = true → startswith l "*" = true) →
  parse_groups_loop B fuel key gs h = Ok gs' →
  ∃ gs2, mapM (element_record B) (element_records key false h) = Ok gs2 ∧ gs' = gs ++ gs2.
Proof.
  intros Hlen Hkey. revert gs h Hlen.
  induction fuel as [|fuel IH]; intros gs [|l rest] Hlen; simpl in *; try lia;
    try (intros [= <-]; exists []; by rewrite app_nil_r).
  destruct (startswith l key) eqn:El.
  - rewrite (Hkey l El). intros ([g1 h1] & Hid & H)%bind_Ok.
    unfold identify_relevant_nodes in Hid.
    apply identify_loop_Ok in Hid as (recs & g2 & -> & Hrecs & Hh1 & Hm & ->).
    assert (Hl1 : (length h1 <= fuel)%nat) by (rewrite length_app in Hlen; lia).
    destruct (IH _ _ Hl1 H) as (gs3 & Hm3 & ->).
    exists (g2 ++ gs3). split; [|by rewrite <- app_assoc].
    rewrite (element_records_section key recs h1 false) by done.
    by apply mapM_app_Ok.
  - intros H. assert (Hl1 : (length rest <= fuel)%nat) by lia.
    destruct (IH _ _ Hl1 H) as (gs2 & Hm & ->).
    exists gs2. split; [|done]. by destruct (startswith l "*").
Qed.

(** X13. The groups [parse_old_inp_file] returns are the groups of the
    record lines of all the element sections of the selected kind, one
    group per line, in the order of the file: the sections add up. *)
Theorem parse_groups_all_sections lines element_types key tbl groups :
  element_key element_types = Ok key →
  parse_old_inp_file B lines key = Ok (tbl, groups) →
  mapM (element_record B) (element_records key false lines) = Ok groups.
Proof.
  intros Hkey. unfold parse_old_inp_file.
  intros (gs & Hgs & H)%bind_Ok. apply bind_Ok in H as (d & _ & [= <- <-]).
  destruct (parse_groups_records _ key [] lines gs (le_n _)) as (gs2 & Hm & ->); try done.
  intros l. by eapply element_key_star.
Qed.

End Element_scan.

(** ** A truncated node section *)

Lemma element_records_lines key inside recs h :
  Forall (λ l, startswith l "*" = false) recs →
  element_records key inside (recs ++ h)
    = (if inside then recs else []) ++ element_records key inside h.
Proof.
  intros Hrecs. induction Hrecs as [|x recs Hx _ IH]; simpl; [by destruct inside|].
  rewrite Hx, IH. by destruct inside.
Qed.

Section Conversions.

Context (B : Builtins).

Lemma element_record_cases l :
  (∃ g, element_record B l = Ok g) ∨ element_record B l = Raise ValueError.
Proof.
  unfold element_record.
  destruct (mapM (py_int B) _) as [g|e] eqn:E; [left; by exists g|right].
  f_equal. eapply mapM_Raise; [|done]. apply py_int_Raise.
Qed.

Lemma node_record_cases l :
  (∃ c, node_record B l = Ok c) ∨ node_record B l = Raise ValueError.
Proof.
  unfold node_record. destruct (split_comma_first (rstrip l)) as (f & fs & ->). simpl.
  destruct (py_int B f) as [n|e] eqn:En; simpl.
  - rewrite drop_0. destruct (mapM (py_float B) fs) as [cs|e] eqn:Ec; simpl.
    + left. by eexists.
    + right. f_equal. eapply mapM_Raise; [|done]. apply py_float_Raise.
  - right. f_equal. by eapply py_int_Raise.
Qed.

(** What a scan of records returns or raises, by the records it meets. *)
Lemma identify_loop_result gs h :
  match identify_relevant_nodes_loop B gs h with
  | Ok (_, h') =>
      ∃ recs, h = recs ++ h' ∧ Forall (λ l, startswith l "*" = false) recs ∧
              (∃ l r, h' = l :: r ∧ startswith l "*" = true) ∧
              Forall (λ l, ∃ g, element_record B l = Ok g) recs
  | Raise e =>
      (e = EndOfInp ElementScan ∧ Forall (λ l, startswith l "*" = false) h ∧
       Forall (λ l, ∃ g, element_record B l = Ok g) h) ∨
      (e = ValueError ∧
       ∃ recs l rest, h = recs ++ l :: rest ∧
                      Forall (λ l, startswith l "*" = false) (recs ++ [l]) ∧
                      element_record B l = Raise ValueError)
  end.
Proof.
  revert gs. induction h as [|l rest IH]; intros gs; simpl.
  - left. by repeat split.
  - destruct (startswith l "*") eqn:El.
    + exists []. repeat split; try done. by exists l, rest.
    + destruct (element_record_cases l) as [[g Hg]|Hg]; unfold element_record in Hg;
        rewrite Hg; simpl.
      * specialize (IH (gs ++ [g])).
        destruct (identify_relevant_nodes_loop B (gs ++ [g]) rest) as [[gs' h']|e].
        -- destruct IH as (recs & -> & Hrecs & Hh' & Hok). exists (l :: recs).
           repeat split; try done; constructor; eauto.
        -- destruct IH as [(-> & Hall & Hok)|(-> & recs & l' & rest' & -> & Hall & Hbad)].
           ++ left. repeat split; try done; constructor; eauto.
           ++ right. split; [done|]. exists (l :: recs), l', rest'.
              repeat split; try done. by constructor.
      * right. split; [done|]. exists [], l, rest. repeat split; try done.
        by repeat constructor.
Qed.

Lemma read_loop_result d h :
  match read_node_coordinates_loop B d h with
  | Ok (_, h') =>
      ∃ recs, h = recs ++ h' ∧ Forall (λ l, startswith l "*" = false) recs ∧
              (∃ l r, h' = l :: r ∧ startswith l "*" = true) ∧
              Forall (λ l, ∃ c, node_record B l = Ok c) recs
  | Raise e =>
      (e = EndOfInp NodeScan ∧ Forall (λ l, startswith l "*" = false) h ∧
       Forall (λ l, ∃ c, node_record B l = Ok c) h) ∨
      (e = ValueError ∧
       ∃ recs l rest, h = recs ++ l :: rest ∧
                      Forall (λ l, startswith l "*" = false) (recs ++ [l]) ∧
                      node_record B l = Raise ValueError)
  end.
Proof.
  revert d. induction h as [|l rest IH]; intros d; simpl.
  - left. by repeat split.
  - destruct (startswith l "*") eqn:El.
    + exists []. repeat split; try done. by exists l, rest.
    + destruct (node_record_cases l) as [[[n cs] Hc]|Hc].
      * apply node_record_Ok in Hc as Hc'. destruct Hc' as (s0 & H0 & Hn & Hcs).
        rewrite H0; simpl. rewrite Hn; simpl. rewrite Hcs; simpl.
        specialize (IH (<[n := cs]> d)).
        destruct (read_node_coordinates_loop B (<[n := cs]> d) rest) as [[d' h']|e].
        -- destruct IH as (recs & -> & Hrecs & Hh' & Hok). exists (l :: recs).
           repeat split; try done; constructor; eauto.
        -- destruct IH as [(-> & Hall & Hok)|(-> & recs & l' & rest' & -> & Hall & Hbad)].
           ++ left. repeat split; try done; constructor; eauto.
           ++ right. split; [done|]. exists (l :: recs), l', rest'.
              repeat split; try done. by constructor.
      * unfold node_record in Hc.
        destruct (index (split_comma (rstrip l)) 0) as [s0|e0] eqn:E0; simpl in *.
        2:{ right. split; [congruence|]. exists [], l, rest. repeat split; try done.
            - by repeat constructor.
            - unfold node_record. by rewrite E0. }
        destruct (py_int B s0) as [n|e1] eqn:E1; simpl in *.
        2:{ right. split; [congruence|]. exists [], l, rest. repeat split; try done.
            - by repeat constructor.
            - unfold node_record. rewrite E0; simpl. by rewrite E1. }
        destruct (mapM (py_float B) (drop 1 (split_comma (rstrip l)))) as [cs|e2] eqn:E2;
          simpl in *; [done|].
        right. split; [congruence|]. exists [], l, rest. repeat split; try done.
        -- by repeat constructor.
        -- unfold node_record. rewrite E0; simpl. rewrite E1; simpl. by rewrite E2.
Qed.

(** The element scan of [parse_old_inp_file]: it returns when every record
    of the selected sections converts, and raises [ValueError] at the first
    one that does not. *)
Lemma parse_groups_result fuel key gs h :
  (length h <= fuel)%nat →
  (∀ l, startswith l key = true → startswith l "*" = true) →
  match parse_groups_loop B fuel key gs h with
  | Ok _ => Forall (λ l, ∃ g, element_record B l = Ok g) (element_records key false h)
  | Raise e =>
      (e = EndOfInp ElementScan ∧
       Forall (λ l, ∃ g, element_record B l = Ok g) (element_records key false h)) ∨
      (e = ValueError ∧
       Exists (λ l, element_record B l = Raise ValueError) (element_records key false h))
  end.
Proof.
  intros Hlen Hkey. revert gs h Hlen.
  induction fuel as [|fuel IH]; intros gs [|l rest] Hlen; simpl in *; try lia;
    try by constructor.
  destruct (startswith l key) eqn:El.
  - rewrite (Hkey l El). unfold identify_relevant_nodes.
    pose proof (identify_loop_result [] rest) as Hscan.
    destruct (identify_relevant_nodes_loop B [] rest) as [[g1 h1]|e]; simpl.
    + destruct Hscan as (recs & -> & Hrecs & Hh1 & Hok).
      rewrite (element_records_section key recs h1 false) by done.
      assert (Hl1 : (length h1 <= fuel)%nat) by (rewrite length_app in Hlen; lia).
      specialize (IH (gs ++ g1) h1 Hl1).
      destruct (parse_groups_loop B fuel key (gs ++ g1) h1) as [gs'|e].
      * by apply Forall_app.
      * destruct IH as [[-> Hall]|[-> Hex]]; [left|right]; split; try done.
        -- by apply Forall_app.
        -- apply Exists_app. by right.
    + destruct Hscan as [(-> & Hall & Hok)|(-> & recs & l' & rest' & -> & Hall & Hbad)].
      * left. split; [done|]. rewrite <- (app_nil_r rest).
        rewrite element_records_lines by done. simpl. by rewrite app_nil_r.
      * right. split; [done|].
        replace (recs ++ l' :: rest') with ((recs ++ [l']) ++ rest')
          by by rewrite <- app_assoc.
        rewrite element_records_lines by done.
        apply Exists_app. left. apply Exists_app. right. by left.
  - assert (Hl1 : (length rest <= fuel)%nat) by lia.
    specialize (IH gs rest Hl1). by destruct (startswith l "*").
Qed.

(** The node scan of [parse_old_inp_file], likewise. *)
Lemma parse_nodes_result fuel d h :
  (length h <= fuel)%nat →
  match parse_nodes_loop B fuel d h with
  | Ok _ => Forall (λ l, ∃ c, node_record B l = Ok c) (node_records h)
  | Raise e =>
      (e = EndOfInp NodeScan ∧
       Forall (λ l, ∃ c, node_record B l = Ok c) (node_records h)) ∨
      (e = ValueError ∧
       Exists (λ l, node_record B l = Raise ValueError) (node_records h))
  end.
Proof.
  unfold node_records. revert d h.
  induction fuel as [|fuel IH]; intros d [|l rest] Hlen; simpl in *; try lia;
    try by constructor.
  destruct (startswith l node_header) eqn:El.
  - rewrite (header_starts_with_star l El). unfold read_node_coordinates.
    pose proof (read_loop_result ∅ rest) as Hscan.
    destruct (read_node_coordinates_loop B ∅ rest) as [[d1 h1]|e]; simpl.
    + destruct Hscan as (recs & -> & Hrecs & Hh1 & Hok).
      rewrite (element_records_section node_header recs h1 false) by done.
      assert (Hl1 : (length h1 <= fuel)%nat) by (rewrite length_app in Hlen; lia).
      specialize (IH d1 h1 Hl1).
      destruct (parse_nodes_loop B fuel d1 h1) as [d'|e].
      * by apply Forall_app.
      * destruct IH as [[-> Hall]|[-> Hex]]; [left|right]; split; try done.
        -- by apply Forall_app.
        -- apply Exists_app. by right.
    + destruct Hscan as [(-> & Hall & Hok)|(-> & recs & l' & rest' & -> & Hall & Hbad)].
      * left. split; [done|]. rewrite <- (app_nil_r rest).
        rewrite element_records_lines by done. simpl. by rewrite app_nil_r.
      * right. split; [done|].
        replace (recs ++ l' :: rest') with ((recs ++ [l']) ++ rest')
          by by rewrite <- app_assoc.
        rewrite element_records_lines by done.
        apply Exists_app. left. apply Exists_app. right. by left.
  - assert (Hl1 : (length rest <= fuel)%nat) by lia.
    specialize (IH d rest Hl1). by destruct (startswith l "*").
Qed.

(** The exception of [parse_old_inp_file] on a file whose node section is
    truncated. *)
Lemma parse_truncated_records lines element_types key e :
  element_key element_types = Ok key →
  truncated lines →
  parse_old_inp_file B lines key = Raise e →
  (e = EndOfInp NodeScan ∨ e = ValueError) ∧
  (e = EndOfInp NodeScan ↔
     (∀ l, l ∈ element_records key false lines → ∃ g, element_record B l = Ok g) ∧
     (∀ l, l ∈ node_records lines → ∃ c, node_record B l = Ok c)).
Proof.
  intros Hkey Htr He.
  destruct (parse_truncated B _ _ _ Hkey Htr) as (e' & He' & Hcases).
  rewrite He in He'. injection He' as <-.
  split; [tauto|]. rewrite <- !Forall_forall.
  pose proof (parse_groups_result (length lines) key [] lines (le_n _)
                (λ l, element_key_star _ _ l Hkey)) as Hg.
  pose proof (parse_nodes_result (length lines) ∅ lines (le_n _)) as Hn.
  unfold parse_old_inp_file in He.
  destruct (parse_groups_loop B _ key [] lines) as [gs|eg]; simpl in He.
  - destruct (parse_nodes_loop B _ ∅ lines) as [tbl|en]; simpl in He; [done|].
    injection He as ->. destruct Hn as [[-> Hall]|[-> Hex]].
    + done.
    + split; [done|]. intros [_ Hall]. apply Exists_exists in Hex as (l & Hl & Hbad).
      rewrite Forall_forall in Hall. destruct (Hall l Hl) as [c Hc]. congruence.
  - injection He as ->. destruct Hg as [[-> Hall]|[-> Hex]].
    + by destruct Hcases.
    + split; [done|]. intros [Hall _]. apply Exists_exists in Hex as (l & Hl & Hbad).
      rewrite Forall_forall in Hall. destruct (Hall l Hl) as [c Hc]. congruence.
Qed.

(** C9, amended. With a valid element policy and an existing source whose
    node section is truncated, [coord_snap] raises while parsing, so the
    file system is left as it was: no destination is created. The
    exception is the end-of-file exception of the node scan exactly when
    every record line of the selected element sections and of the node
    sections converts; when one of them does not, it is the [ValueError]
    of the conversion. *)
Theorem truncated_node_section fs old_path new_path element_types key tolerance text :
  element_key element_types = Ok key →
  fs !! old_path = Some text →
  truncated (readlines text) →
  ∃ e, coord_snap B fs old_path new_path element_types tolerance = (fs, Raise e) ∧
       (e = EndOfInp NodeScan ∨ e = ValueError) ∧
       (e = EndOfInp NodeScan ↔
          (∀ l, l ∈ element_records key false (readlines text) →
                ∃ g, element_record B l = Ok g) ∧
          (∀ l, l ∈ node_records (readlines text) → ∃ c, node_record B l = Ok c)).
Proof.
  intros Hkey Hold Htr.
  destruct (parse_truncated B _ _ _ Hkey Htr) as (e & He & _).
  exists e. split.
  - unfold coord_snap. by rewrite Hkey, Hold, He.
  - by eapply parse_truncated_records.
Qed.

End Conversions.

(** C9, as stated, fails: a truncated node section whose last line is
    blank, or whose last record ends with a comma, makes [coord_snap] raise
    [ValueError], not the end-of-file exception of the scan. *)
Lemma truncated_section_value_error :
  truncated (readlines blank_cut_text) ∧
  coord_snap Py.builtins {[ "a.inp" := blank_cut_text ]} "a.inp" "b.inp" "cohesives"
    0.001%float = ({[ "a.inp" := blank_cut_text ]}, Raise ValueError) ∧
  truncated (readlines comma_cut_text) ∧
  coord_snap Py.builtins {[ "a.inp" := comma_cut_text ]} "a.inp" "b.inp" "cohesives"
    0.001%float = ({[ "a.inp" := comma_cut_text ]}, Raise ValueError).
Proof.
  split; [|split; [|split]].
  - exists ["*Heading" +:+ newline], ("*Node" +:+ newline),
      ["1, 0.0, 0.0, 0.0" +:+ newline; newline].
    split; [vm_compute; reflexivity|]. split; [vm_compute; reflexivity|].
    repeat constructor.
  - vm_compute; reflexivity.
  - exists ["*Heading" +:+ newline], ("*Node" +:+ newline),
      ["1, 0.0, 0.0, 0.0" +:+ newline; "2, 0.0005, 0.0," +:+ newline].
    split; [vm_compute; reflexivity|]. split; [vm_compute; reflexivity|].
    repeat constructor.
  - vm_compute; reflexivity.
Qed.

Lemma truncated_node_section_witness :
  coord_snap Py.builtins cut_fs "a.inp" "b.inp" "cohesives" 0.001%float
    = (cut_fs, Raise (EndOfInp NodeScan)) ∧
  cut_fs !! "b.inp" = None.
Proof.
  split; [|vm_compute; reflexivity].
  destruct (truncated_node_section Py.builtins cut_fs "a.inp" "b.inp" "cohesives"
              "*Element, type=COH3D" 0.001%float cut_text)
    as (e & Hsnap & _ & Hiff).
  - reflexivity.
  - vm_compute; reflexivity.
  - exists ["*Heading" +:+ newline], ("*Node" +:+ newline),
      ["1, 0.0, 0.0, 0.0" +:+ newline; "2, 0.0005, 0.0, 0.0" +:+ newline].
    split; [vm_compute; reflexivity|]. split; [vm_compute; reflexivity|].
    repeat constructor.
  - rewrite Hsnap. f_equal. f_equal. apply Hiff. split.
    + intros l Hl. vm_compute in Hl. by apply elem_of_nil in Hl.
    + intros l Hl. vm_compute in Hl.
      repeat (apply elem_of_cons in Hl as [->|Hl]; [eexists; vm_compute; reflexivity|]).
      by apply elem_of_nil in Hl.
Defined.

(** ** The driver and the file system *)

Lemma concat_cons (x : string) (xs : list string) :
  String.concat EmptyString (x :: xs) = x +:+ String.concat EmptyString xs.
Proof.
  destruct xs as [|y ys]; simpl; [|done].
  induction x as [|c x IH]; simpl; [done|].
  change (String c x +:+ "") with (String c (x +:+ "")). by f_equal.
Qed.

Lemma concat_readlines (s : string) : String.concat EmptyString (readlines s) = s.
Proof.
  induction s as [|c s IH]; [done|].
  change (readlines (String c s))
    with (if Ascii.eqb c "010"%char then String c EmptyString :: readlines s
          else match readlines s with
               | l :: ls => String c l :: ls
               | [] => [String c EmptyString]
               end).
  destruct (Ascii.eqb c "010").
  - rewrite concat_cons, IH. done.
  - destruct (readlines s) as [|l ls] eqn:E.
    + simpl in IH. by subst.
    + rewrite concat_cons in *.
      change (String c l +:+ String.concat "" ls)
        with (String c (l +:+ String.concat "" ls)).
      by rewrite IH.
Qed.

Lemma targets_has3 tol sched t n :
  n ∈ targets tol sched t → has3 (run tol sched t) n.
Proof.
  intros (pre & a & post & -> & Hs)%targets_schedule.
  replace (pre ++ (a, n) :: post) with ((pre ++ [(a, n)]) ++ post)
    by by rewrite <- app_assoc.
  rewrite run_app. apply run_has3. rewrite run_app. unfold run at 1; simpl.
  apply snaps_has3 in Hs as ((ca & Ha & Hl) & _ & Hn).
  exists ca. split; [|done]. by rewrite Hn.
Qed.

Lemma adjusted_three t groups tol r n c :
  adjust_nodes t groups tol = Ok r →
  adjusted_coords_dict r !! n = Some c → (3 <= length c)%nat.
Proof.
  intros (_ & _ & _ & Hadj)%adjust_nodes_Ok [Hn Hc]%Hadj.
  apply targets_has3 in Hn as (c' & Hc' & Hl). by simplify_eq.
Qed.

Lemma truncated_cons l lines : truncated lines → truncated (l :: lines).
Proof.
  intros (pre & hdr & rest & -> & Hhdr & Hrest). by exists (l :: pre), hdr, rest.
Qed.

Section Driver_properties.

Context (B : Builtins).

(** What the rewriter raises, and what it has written by then. *)
Lemma rewrite_lines_raises adj inside lines o e :
  rewrite_lines B adj inside lines = (o, Raise e) →
  e = ValueError ∨
  (e = IndexError ∧ ∃ n c, adj !! n = Some c ∧ (length c < 3)%nat) ∨
  (e = EndOfInp RewriteScan ∧ length o = length lines ∧
   ((inside = true ∧ Forall (λ l, startswith l "*" = false) lines) ∨ truncated lines)).
Proof.
  revert inside o. induction lines as [|l rest IH]; intros inside o; simpl.
  - destruct inside; [|done]. intros [= <- <-]. right. right. repeat split; auto.
  - destruct (startswith l "*") eqn:El.
    + destruct (rewrite_lines B adj (startswith l node_header) rest) as [o' res'] eqn:E.
      intros [= <- ->]. destruct (IH _ _ E) as [?|[?|(-> & Hlen & Hcase)]]; auto.
      right. right. split; [done|]. split; [simpl; by rewrite Hlen|]. right.
      destruct Hcase as [[Hh Hall]|Htr]; [by exists [], l, rest | by apply truncated_cons].
    + destruct (rewrite_line B adj inside l) as [x|e'] eqn:Ex.
      * destruct (rewrite_lines B adj inside rest) as [o' res'] eqn:E.
        intros [= <- ->]. destruct (IH _ _ E) as [?|[?|(-> & Hlen & Hcase)]]; auto.
        right. right. split; [done|]. split; [simpl; by rewrite Hlen|].
        destruct Hcase as [[Hh Hall]|Htr]; [left | right; by apply truncated_cons].
        split; [done|by constructor].
      * intros [= <- <-]. unfold rewrite_line in Ex. destruct inside; [|done].
        apply bind_Raise in Ex as [H|(n & _ & H)].
        -- left. unfold node_id in H.
           destruct (split_comma_first l) as (f & fs & Hf). rewrite Hf in H. simpl in H.
           by apply py_int_Raise in H.
        -- destruct (adj !! n) as [c|] eqn:Ec; [|done]. right. left.
           unfold format_node in H.
           destruct c as [|x [|y [|z r]]]; simpl in H; simplify_eq;
             (split; [done|]; eexists _, _; split; [done|simpl; lia]).
Qed.

(** X14. When the rewriter raises its end-of-file exception, the node
    section it was in is truncated, and every line of the source has been
    written by then. *)
Theorem rewriter_end_of_file lines adj out :
  write_new_inp_file B lines adj = (out, Raise (EndOfInp RewriteScan)) →
  truncated lines ∧ length out = length lines.
Proof.
  rewrite write_new_inp_file_spec.
  intros [?|[[? _]|(_ & Hlen & [[? _]|Htr])]]%rewrite_lines_raises; done.
Qed.

(** X16. A failure of [coord_snap] leaves the file system as it was,
    except for a [ValueError]: the destination is opened only after the
    parser and the clusterer have returned, and then the rewriter can raise
    neither its end-of-file exception (the parser has seen every node
    section end) nor an [IndexError] (every returned tuple has three
    coordinates). *)
Theorem coord_snap_failure_untouched fs fs' old_path new_path element_types tolerance e :
  coord_snap B fs old_path new_path element_types tolerance = (fs', Raise e) →
  e ≠ ValueError →
  fs' = fs.
Proof.
  unfold coord_snap. intros H He.
  destruct (element_key element_types) as [key|e0]; [|by simplify_eq].
  destruct (fs !! old_path) as [text|] eqn:Hold; [|by simplify_eq].
  destruct (parse_old_inp_file B (readlines text) key) as [[tbl groups]|e0] eqn:Hp;
    simpl in H; [|by simplify_eq].
  destruct (adjust_nodes tbl groups tolerance) as [adj|e0] eqn:Ha; [|by simplify_eq].
  exfalso. rewrite write_new_inp_file_spec in H.
  destruct (rewrite_lines B _ false _) as [out [[]|e0]] eqn:Hw; simpl in H; [done|].
  simplify_eq.
  apply rewrite_lines_raises in Hw as [?|[(_ & n & c & Hc & Hl)|(_ & _ & [[? _]|Htr])]];
    try done.
  - apply (adjusted_three _ _ _ _ _ _ Ha) in Hc. lia.
  - unfold contents in Htr. destruct (decide (old_path = new_path)) as [->|Hne].
    + rewrite lookup_insert_eq in Htr. simpl in Htr.
      destruct Htr as (pre & hdr & rest & Heq & _). by destruct pre.
    + rewrite lookup_insert_ne, Hold in Htr by done. simpl in Htr.
      destruct Htr as (pre & hdr & rest & Heq & Hhdr & Hrest).
      unfold parse_old_inp_file in Hp.
      apply bind_Ok in Hp as (gs & _ & Hp). apply bind_Ok in Hp as (d & Hd & _).
      destruct (parse_nodes_truncated B (length (readlines text)) ∅ pre hdr rest)
        as (e' & He' & _); [by rewrite Heq|done|done|].
      rewrite Heq in Hd at 2. congruence.
Qed.

(** X19. When the destination is the source itself, a successful
    [coord_snap] leaves an empty file: the file is emptied when it is opened
    for writing, and the rewriter then finds nothing to read. *)
Theorem coord_snap_same_path fs fs' path element_types tolerance v :
  coord_snap B fs path path element_types tolerance = (fs', Ok v) →
  fs' = <[path := EmptyString]> fs.
Proof.
  unfold coord_snap.
  destruct (element_key element_types) as [key|e]; [|done].
  destruct (fs !! path) as [text|]; [|done].
  destruct (_ ≫= _) as [adj|e]; [|done].
  unfold contents. rewrite lookup_insert_eq. simpl. by intros [= <- _].
Qed.

End Driver_properties.

(** ** Concrete runs of the further properties *)

Lemma read_node_coordinates_records_witness :
  ∃ tbl, read_node_coordinates Py.builtins (repeated_records ++ end_line :: [])
           = Ok (tbl, [end_line]) ∧
         tbl !! 1 = Some [5; 5; 5; 9]%float.
Proof.
  destruct (read_node_coordinates_records Py.builtins repeated_records
              [(1, [0; 0; 0]%float); (1, [5; 5; 5; 9]%float)] end_line [])
    as (tbl & Hread & _ & Hlast & _).
  - repeat constructor.
  - reflexivity.
  - vm_compute; reflexivity.
  - exists tbl. split; [exact Hread|].
    apply (Hlast [(1, [0; 0; 0]%float)] 1 [5; 5; 5; 9]%float []); [reflexivity|].
    simpl. apply not_elem_of_nil.
Defined.

Lemma identify_relevant_nodes_records_witness :
  identify_relevant_nodes Py.builtins (element_lines_sample ++ end_line :: [])
    = Ok ([[1; 2]; [2; 3]], [end_line]).
Proof.
  apply (identify_relevant_nodes_records Py.builtins element_lines_sample
           [[1; 2]; [2; 3]] end_line []).
  - repeat constructor.
  - reflexivity.
  - vm_compute; reflexivity.
Defined.

Lemma element_id_not_converted_witness :
  identify_relevant_nodes Py.builtins [("x7" +:+ "," +:+ " 1, 2" +:+ newline); end_line]
    = Ok ([[1; 2]], [end_line]) ∧
  int_of_string Py.builtins "x7" = None.
Proof.
  split; [|vm_compute; reflexivity].
  destruct (element_id_not_converted Py.builtins
              ("x7" +:+ "," +:+ " 1, 2" +:+ newline) end_line []) as [H _].
  - reflexivity.
  - reflexivity.
  - apply (H "x7" (" 1, 2" +:+ newline) [1; 2]); [reflexivity | reflexivity |].
    vm_compute; reflexivity.
Defined.

Lemma truncated_element_section_witness :
  ∃ e, coord_snap Py.builtins {[ "a.inp" := cut_elements_text ]} "a.inp" "b.inp"
         "cohesives" 0.001%float
       = ({[ "a.inp" := cut_elements_text ]}, Raise e) ∧
       (e = ValueError ∨ e = EndOfInp ElementScan).
Proof.
  apply (truncated_element_section Py.builtins {[ "a.inp" := cut_elements_text ]}
           "a.inp" "b.inp" "cohesives" "*Element, type=COH3D" 0.001%float
           cut_elements_text).
  - reflexivity.
  - vm_compute; reflexivity.
  - exists ["*Node" +:+ newline; "1, 0.0, 0.0, 0.0" +:+ newline],
      ("*Element, type=COH3D8" +:+ newline), ["1, 1, 2" +:+ newline].
    split; [vm_compute; reflexivity|]. split; [vm_compute; reflexivity|].
    repeat constructor.
Defined.

Lemma parse_groups_all_sections_witness :
  mapM (element_record Py.builtins)
       (element_records "*Element, type=COH3D" false (readlines sections_text))
    = Ok [[1; 2]; [3; 4]].
Proof.
  apply (parse_groups_all_sections Py.builtins (readlines sections_text) "cohesives"
           "*Element, type=COH3D" {[ 1 := [0; 0; 0]%float ]} [[1; 2]; [3; 4]]).
  - reflexivity.
  - vm_compute; reflexivity.
Defined.

Lemma rewriter_end_of_file_witness :
  truncated (readlines cut_text) ∧
  length (write_new_inp_file Py.builtins (readlines cut_text) ∅).1
    = length (readlines cut_text).
Proof.
  destruct (rewriter_end_of_file Py.builtins (readlines cut_text) ∅
              (readlines cut_text)) as [Htr Hlen]; [vm_compute; reflexivity|].
  split; [exact Htr|]. vm_compute; reflexivity.
Defined.

Lemma coord_snap_failure_untouched_witness :
  (coord_snap Py.builtins cut_fs "a.inp" "b.inp" "all" 0.001%float).1 = cut_fs.
Proof.
  apply (coord_snap_failure_untouched Py.builtins cut_fs _ "a.inp" "b.inp" "all"
           0.001%float (EndOfInp NodeScan)).
  - vm_compute; reflexivity.
  - discriminate.
Defined.

Lemma coord_snap_same_path_witness :
  (coord_snap Py.builtins scenario_fs "a.inp" "a.inp" "cohesives" 0.001%float).1 !! "a.inp"
    = Some EmptyString.
Proof.
  rewrite (coord_snap_same_path Py.builtins scenario_fs
             (coord_snap Py.builtins scenario_fs "a.inp" "a.inp" "cohesives" 0.001%float).1
             "a.inp" "cohesives" 0.001%float PyNone).
  - apply lookup_insert_eq.
  - vm_compute; reflexivity.
Defined.

(** ** Files with nothing to change, or without node section *)

Lemma adjust_groups_empty_table tol groups st :
  dict st = ∅ →
  (∃ g n, g ∈ groups ∧ n ∈ g) →
  ∃ k, adjust_groups tol groups st = Raise (KeyError k) ∧ ∃ g, g ∈ groups ∧ k ∈ g.
Proof.
  intros Hd. induction groups as [|g groups IH]; intros (g0 & n & Hg0 & Hn).
  - by apply elem_of_nil in Hg0.
  - destruct g as [|n1 later].
    + simpl. destruct IH as (k & Hk & g' & Hg' & Hin).
      { apply elem_of_cons in Hg0 as [->|Hg0]; [by apply elem_of_nil in Hn|].
        by exists g0, n. }
      exists k. split; [done|]. exists g'. split; [by right|done].
    + exists n1. split.
      * simpl. unfold getitem. by rewrite Hd, lookup_empty.
      * exists (n1 :: later). split; by left.
Qed.

Section Nothing_to_change.

Context (B : Builtins).

Lemma rewrite_lines_nothing inside lines o res :
  rewrite_lines B ∅ inside lines = (o, res) →
  o `prefix_of` lines ∧ (res = Ok tt → o = lines).
Proof.
  revert inside o res. induction lines as [|l rest IH]; intros inside o res; simpl.
  - intros [= <- _]. split; [done|]. done.
  - destruct (startswith l "*").
    + destruct (rewrite_lines B ∅ _ rest) as [o' res'] eqn:E.
      intros [= <- <-]. destruct (IH _ _ _ E) as [Hp Heq].
      split; [destruct Hp as [k ->]; by exists k|]. intros Hres. by rewrite Heq.
    + destruct (rewrite_line B ∅ inside l) as [x|e] eqn:Ex.
      * assert (x = l) as ->.
        { unfold rewrite_line in Ex. destruct inside; [|by simplify_eq].
          apply bind_Ok in Ex as (n & _ & Ex). rewrite lookup_empty in Ex.
          by simplify_eq. }
        destruct (rewrite_lines B ∅ inside rest) as [o' res'] eqn:E.
        intros [= <- <-]. destruct (IH _ _ _ E) as [Hp Heq].
        split; [destruct Hp as [k ->]; by exists k|]. intros Hres. by rewrite Heq.
      * intros [= <- <-]. split; [apply prefix_nil|done].
Qed.

(** X17. With an empty changed-node dictionary the rewriter writes the
    lines it reads, unchanged and in order: what it has written is a prefix
    of the source lines, and all of them when it returns. *)
Theorem rewriter_nothing_to_change lines out res :
  write_new_inp_file B lines ∅ = (out, res) →
  out `prefix_of` lines ∧ (res = Ok tt → out = lines).
Proof. rewrite write_new_inp_file_spec. apply rewrite_lines_nothing. Qed.

(** X18. When no line read from the source starts with the element
    keyword, the parser returns no group, and the clusterer then returns an
    empty dictionary, leaves the table as read and logs zero
    substitutions. *)
Theorem no_element_section lines key tbl groups tol :
  (∀ l, l ∈ lines → startswith l key = false) →
  parse_old_inp_file B lines key = Ok (tbl, groups) →
  groups = [] ∧
  adjust_nodes tbl groups tol
    = Ok {| adjusted_coords_dict := ∅; node_coords_after := tbl;
            substitutions_made := 0 |}.
Proof.
  intros Hno Hp. unfold parse_old_inp_file in Hp.
  rewrite parse_groups_no_key in Hp by done. simpl in Hp.
  apply bind_Ok in Hp as (d & _ & [= <- <-]). split; [done|].
  unfold adjust_nodes; simpl. by rewrite elements_empty.
Qed.

(** X20. Only a line that starts with ['*Node'] followed by the line feed
    opens a node section. When no line read from the source is such a line
    the node table is empty, and as soon as some group has a node the
    clusterer raises [KeyError] for a node of a group. *)
Theorem no_node_section lines key tbl groups tol :
  (∀ l, l ∈ lines → startswith l node_header = false) →
  parse_old_inp_file B lines key = Ok (tbl, groups) →
  tbl = ∅ ∧
  ((∃ g n, g ∈ groups ∧ n ∈ g) →
   ∃ k, adjust_nodes tbl groups tol = Raise (KeyError k) ∧ ∃ g, g ∈ groups ∧ k ∈ g).
Proof.
  intros Hno Hp.
  assert (Htbl : tbl = ∅).
  { unfold parse_old_inp_file in Hp. apply bind_Ok in Hp as (gs & _ & Hp).
    rewrite parse_nodes_no_header in Hp by done. simpl in Hp.
    by injection Hp as <- _. }
  split; [done|]. intros Hsome.
  destruct (adjust_groups_empty_table tol groups (initial tbl) Htbl Hsome)
    as (k & Hk & Hg).
  exists k. split; [|done]. revert Hk. unfold adjust_nodes, initial. by intros ->.
Qed.

End Nothing_to_change.

Lemma rewriter_nothing_to_change_witness :
  write_new_inp_file Py.builtins sample_lines ∅ = (sample_lines, Ok tt) ∧
  (write_new_inp_file Py.builtins bad_id_lines ∅).1 `prefix_of` bad_id_lines ∧
  (write_new_inp_file Py.builtins bad_id_lines ∅).2 = Raise ValueError.
Proof.
  split; [|split].
  - destruct (write_new_inp_file Py.builtins sample_lines ∅) as [out res] eqn:E.
    assert (Hres : res = Ok tt).
    { apply (f_equal snd) in E. vm_compute in E. congruence. }
    destruct (rewriter_nothing_to_change Py.builtins sample_lines out res E) as [_ Heq].
    by rewrite (Heq Hres), Hres.
  - destruct (write_new_inp_file Py.builtins bad_id_lines ∅) as [out res] eqn:E.
    apply (rewriter_nothing_to_change Py.builtins bad_id_lines out res E).
  - vm_compute; reflexivity.
Defined.

Lemma no_element_section_witness :
  ∃ tbl, parse_old_inp_file Py.builtins (readlines plain_text) "*Element, type=" = Ok (tbl, []) ∧
         adjust_nodes tbl [] 0.001%float
           = Ok {| adjusted_coords_dict := ∅; node_coords_after := tbl;
                   substitutions_made := 0 |}.
Proof.
  exists {[ 1 := [1; 1; 1]%float ]}. split; [vm_compute; reflexivity|].
  apply (no_element_section Py.builtins (readlines plain_text) "*Element, type="
           {[ 1 := [1; 1; 1]%float ]} [] 0.001%float).
  - intros l Hl. vm_compute in Hl.
    repeat (apply elem_of_cons in Hl as [->|Hl]; [vm_compute; reflexivity|]).
    by apply elem_of_nil in Hl.
  - vm_compute; reflexivity.
Defined.

Lemma no_node_section_witness :
  ∃ k, adjust_nodes ∅ [[1; 2]] 0.001%float = Raise (KeyError k) ∧
       parse_old_inp_file Py.builtins (readlines upper_case_text) "*Element, type=COH3D"
         = Ok (∅, [[1; 2]]).
Proof.
  destruct (no_node_section Py.builtins (readlines upper_case_text) "*Element, type=COH3D"
              ∅ [[1; 2]] 0.001%float) as (_ & Hk).
  - intros l Hl. vm_compute in Hl.
    repeat (apply elem_of_cons in Hl as [->|Hl]; [vm_compute; reflexivity|]).
    by apply elem_of_nil in Hl.
  - vm_compute; reflexivity.
  - destruct Hk as (k & Hk & _); [exists [1; 2], 1; split; by left|].
    exists k. split; [exact Hk|]. vm_compute; reflexivity.
Defined.
